(** * AdventureGame: a shallow embedding of [AdventureGame.cpp]

    The program is a console game: a [Player] fights one [Enemy], may
    collect treasures, and may save or load its (name, health) pair through
    the file [game_state.txt].  The embedding follows the source class by
    class: [Character], [Player], [Enemy] and [Game], with the console, the
    save file and the [player] pointer of [Game] gathered in a [State].
    The opening screen and the music thread of [main] share nothing with
    the game and are left out. *)

From Stdlib Require Import ZArith NArith List String Ascii Bool Lia.
From Stdlib Require Import DecimalString DecimalZ DecimalPos.
Import ListNotations.

Local Open Scope string_scope.
Local Open Scope Z_scope.

(** ** The C++ [int]

    [int] is a 32-bit two's complement integer, held in [Z].  Arithmetic
    that leaves the range is written with the wrap-around of the usual
    targets ([wrap]); every result of the development that depends on a
    wrap says so. *)

Module Int.

Definition min_int : Z := -2147483648.
Definition max_int : Z := 2147483647.
Definition modulus : Z := 4294967296.

Definition in_range (z : Z) : Prop := min_int <= z <= max_int.

Definition wrap (z : Z) : Z := (z - min_int) mod modulus + min_int.

Definition sub (a b : Z) : Z := wrap (a - b).
Definition add (a b : Z) : Z := wrap (a + b).

(** Saturation, as [num_get] stores an out-of-range value. *)
Definition saturate (z : Z) : Z :=
  if z <? min_int then min_int else if max_int <? z then max_int else z.

End Int.

(** ** Characters *)

(** [class Character]: the two data members. *)
Record Character : Type := mkCharacter {
  name : string;
  health : Z
}.

(** [Character::takeDamage]: [health -= damage; if (health < 0) health = 0;] *)
Definition takeDamage (damage : Z) (c : Character) : Character :=
  let h := Int.sub (health c) damage in
  {| name := name c; health := if h <? 0 then 0 else h |}.

Definition getHealth (c : Character) : Z := health c.
Definition getName (c : Character) : string := name c.

(** [class Player : public Character] adds the treasure counter. *)
Record Player : Type := mkPlayer {
  player_base : Character;
  treasuresCollected : Z
}.

(** [class Enemy : public Character] adds nothing. *)
Record Enemy : Type := mkEnemy {
  enemy_base : Character
}.

(** [Player::Player(string name) : Character(name, 100), treasuresCollected(0)] *)
Definition new_Player (n : string) : Player :=
  {| player_base := {| name := n; health := 100 |}; treasuresCollected := 0 |}.

(** [Enemy::Enemy(string name) : Character(name, 50)] *)
Definition new_Enemy (n : string) : Enemy :=
  {| enemy_base := {| name := n; health := 50 |} |}.

(** The virtual interface of [Character]: [displayStats] and [attack] are
    pure virtual in the base class and overridden in both derived classes.
    Each method returns the line it sends to [cout]; [attack] also returns
    the target after [takeDamage]. *)
Class CharacterOps (T : Type) : Type := {
  base : T -> Character;
  set_base : Character -> T -> T;
  displayStats : T -> string;
  attack : T -> Character -> string * Character
}.

(** ** Text *)

Definition nl : string := String "010" "".

(** [ostream << int]: decimal digits, with a leading minus sign. *)
Definition show_int (z : Z) : string := NilZero.string_of_int (Z.to_int z).

(** [Player::displayStats] *)
Definition Player_displayStats (p : Player) : string :=
  "Player: " ++ name (player_base p) ++ ", Health: "
    ++ show_int (health (player_base p))
    ++ ", Treasures: " ++ show_int (treasuresCollected p) ++ nl.

(** [Player::attack]: [target.takeDamage(20)] *)
Definition Player_attack (p : Player) (target : Character) : string * Character :=
  (name (player_base p) ++ " attacks the enemy!" ++ nl, takeDamage 20 target).

(** [Player::collectTreasure]: [treasuresCollected++], then the total is shown. *)
Definition collectTreasure (p : Player) : string * Player :=
  let p' := {| player_base := player_base p;
               treasuresCollected := Int.add (treasuresCollected p) 1 |} in
  ("Collected a treasure! Total: " ++ show_int (treasuresCollected p') ++ nl, p').

(** [Enemy::displayStats] *)
Definition Enemy_displayStats (e : Enemy) : string :=
  "Enemy: " ++ name (enemy_base e) ++ ", Health: "
    ++ show_int (health (enemy_base e)) ++ nl.

(** [Enemy::attack]: [target.takeDamage(15)] *)
Definition Enemy_attack (e : Enemy) (target : Character) : string * Character :=
  (name (enemy_base e) ++ " attacks the player!" ++ nl, takeDamage 15 target).

#[export] Instance Player_ops : CharacterOps Player := {
  base := player_base;
  set_base c p := {| player_base := c; treasuresCollected := treasuresCollected p |};
  displayStats := Player_displayStats;
  attack := Player_attack
}.

#[export] Instance Enemy_ops : CharacterOps Enemy := {
  base := enemy_base;
  set_base c _ := {| enemy_base := c |};
  displayStats := Enemy_displayStats;
  attack := Enemy_attack
}.

(** ** Formatted input

    [operator>>] of the standard library on [string] and on [int], in the
    classic locale with the default flags ([skipws], decimal base).  A
    stream is the text not yet read and two state bits; [badbit] is never
    set by the operations the program uses. *)

Module IOS.

Record istream : Type := mkIstream {
  rdbuf : string;
  eofbit : bool;
  failbit : bool
}.

Definition good (s : istream) : bool := negb (eofbit s) && negb (failbit s).

(** A stream just opened on a text. *)
Definition open (text : string) : istream :=
  {| rdbuf := text; eofbit := false; failbit := false |}.

(** [isspace] in the classic locale: HT, LF, VT, FF, CR and the blank. *)
Definition isspace (c : ascii) : bool :=
  let n := N_of_ascii c in ((9 <=? n) && (n <=? 13) || (n =? 32))%N.

Definition isdigit (c : ascii) : bool :=
  let n := N_of_ascii c in ((48 <=? n) && (n <=? 57))%N.

Definition digit_value (c : ascii) : Z := Z.of_N (N_of_ascii c) - 48.

Definition is_empty (s : string) : bool :=
  match s with EmptyString => true | String _ _ => false end.

Fixpoint skipws (s : string) : string :=
  match s with
  | EmptyString => EmptyString
  | String c s' => if isspace c then skipws s' else s
  end.

(** [istream::sentry]: fails on a stream that is not good; otherwise skips
    white space and fails, setting both bits, when the text ends there. *)
Definition sentry (s : istream) : bool * istream :=
  if good s then
    let rest := skipws (rdbuf s) in
    if is_empty rest
    then (false, {| rdbuf := rest; eofbit := true; failbit := true |})
    else (true, {| rdbuf := rest; eofbit := false; failbit := false |})
  else (false, {| rdbuf := rdbuf s; eofbit := eofbit s; failbit := true |}).

(** The characters up to the next white space, and the rest. *)
Fixpoint take_word (s : string) : string * string :=
  match s with
  | EmptyString => (EmptyString, EmptyString)
  | String c s' =>
      if isspace c then (EmptyString, s)
      else let (w, r) := take_word s' in (String c w, r)
  end.

(** [is >> str]: when the sentry fails [str] keeps its value. *)
Definition extract_string (s : istream) (str : string) : string * istream :=
  let (ok, s1) := sentry s in
  if ok then
    let (w, r) := take_word (rdbuf s1) in
    (w, {| rdbuf := r; eofbit := is_empty r; failbit := false |})
  else (str, s1).

(** The decimal digits at the head of a text, accumulated from [acc];
    [None] when there is no digit. *)
Fixpoint take_digits (acc : option Z) (s : string) : option Z * string :=
  match s with
  | EmptyString => (acc, EmptyString)
  | String c s' =>
      if isdigit c then
        take_digits
          (Some (10 * match acc with Some a => a | None => 0 end + digit_value c)) s'
      else (acc, s)
  end.

Definition take_sign (s : string) : bool * string :=
  match s with
  | String "-" s' => (true, s')
  | String "+" s' => (false, s')
  | _ => (false, s)
  end.

(** [is >> n] for [int n]: when the sentry fails [n] keeps its value; a
    field without digits stores 0 and sets [failbit]; a value outside
    [int] stores the nearest bound and sets [failbit]. *)
Definition extract_int (s : istream) (n : Z) : Z * istream :=
  let (ok, s1) := sentry s in
  if ok then
    let (neg, t) := take_sign (rdbuf s1) in
    let (digits, r) := take_digits None t in
    match digits with
    | None => (0, {| rdbuf := r; eofbit := is_empty r; failbit := true |})
    | Some m =>
        let z := if neg then - m else m in
        (Int.saturate z,
         {| rdbuf := r; eofbit := is_empty r;
            failbit := negb ((Int.min_int <=? z) && (z <=? Int.max_int)) |})
    end
  else (n, s1).

End IOS.

(** ** The world around [Game]

    [console] is what the program has written, oldest first, one entry per
    output statement; [cin] is the text still to be typed; the three [file]
    fields describe [game_state.txt]; [player] is the pointer member of
    [Game], [None] for [nullptr]. *)

Inductive Out : Type :=
| Cout (text : string)
| Cerr (text : string).

Record State : Type := mkState {
  cin : IOS.istream;
  console : list Out;
  file_content : option string;
  file_readable : bool;
  file_writable : bool;
  player : option Player
}.

Definition put (o : Out) (s : State) : State :=
  {| cin := cin s; console := console s ++ [o];
     file_content := file_content s; file_readable := file_readable s;
     file_writable := file_writable s; player := player s |}.

Definition cout (text : string) : State -> State := put (Cout text).
Definition cerr (text : string) : State -> State := put (Cerr text).

Definition set_cin (i : IOS.istream) (s : State) : State :=
  {| cin := i; console := console s;
     file_content := file_content s; file_readable := file_readable s;
     file_writable := file_writable s; player := player s |}.

Definition set_player (p : option Player) (s : State) : State :=
  {| cin := cin s; console := console s;
     file_content := file_content s; file_readable := file_readable s;
     file_writable := file_writable s; player := p |}.

Definition set_file (text : string) (s : State) : State :=
  {| cin := cin s; console := console s;
     file_content := Some text; file_readable := file_readable s;
     file_writable := file_writable s; player := player s |}.

(** [ifstream file("game_state.txt")]: the stream, or [None] when [!file]. *)
Definition ifstream_open (s : State) : option IOS.istream :=
  match file_content s with
  | Some text => if file_readable s then Some (IOS.open text) else None
  | None => None
  end.

(** [ofstream file("game_state.txt")]: [false] when [!file]. *)
Definition ofstream_open (s : State) : bool := file_writable s.

(** ** Results of a run

    A call either returns, dereferences the null [player], or is cut by the
    fuel that bounds the two [while] loops. *)

Inductive outcome (A : Type) : Type :=
| Ret (a : A)
| NullDeref
| OutOfFuel.

Arguments Ret {A} a.
Arguments NullDeref {A}.
Arguments OutOfFuel {A}.

Definition bind {A B : Type} (m : outcome A) (k : A -> outcome B) : outcome B :=
  match m with
  | Ret a => k a
  | NullDeref => NullDeref
  | OutOfFuel => OutOfFuel
  end.

Notation "x <- m ;; k" := (bind m (fun x => k))
  (at level 61, m at next level, right associativity).
Notation "' pat <- m ;; k" := (bind m (fun x => match x with pat => k end))
  (at level 61, pat pattern, m at next level, right associativity).

(** [player->...] *)
Definition deref (s : State) : outcome Player :=
  match player s with
  | Some p => Ret p
  | None => NullDeref
  end.

(** How an iteration of the loop of [play] ends: it falls through to the
    loop test, or leaves [play] by the [return] of the third action. *)
Inductive flow : Type := Continue | Return.

Definition defeat_text : string := "You have been defeated. Game over." ++ nl.
Definition victory_text : string := "You defeated the enemy! Victory!" ++ nl.
Definition menu_text : string :=
  "1. Start Game" ++ nl ++ "2. Load Game" ++ nl ++ "3. Exit" ++ nl.
Definition action_text : string :=
  nl ++ "Choose an action:" ++ nl ++ "1. Attack" ++ nl ++ "2. Collect Treasure"
     ++ nl ++ "3. Save and Exit" ++ nl.

Section Game.

(** [exception::what] of an [ios_base::failure] built from a message: the
    text is the implementation's. *)
Variable what : string -> string.

(** The value of the local [int playerHealth] of [loadGame] before
    anything is stored in it. *)
Variable indeterminate : Z.

(** [Game::saveGame] *)
Definition saveGame (s : State) : outcome State :=
  if ofstream_open s then
    p <- deref s ;;
    let text := getName (base p) ++ nl ++ show_int (getHealth (base p)) ++ nl in
    Ret (cout ("Game state saved successfully." ++ nl) (set_file text s))
  else
    Ret (cerr ("Error saving game: " ++ what "Failed to open file for saving." ++ nl) s).

(** The body of the [while] loop of [Game::play]. *)
Definition play_body (enemy : Enemy) (s : State) : outcome (flow * Enemy * State) :=
  p <- deref s ;;
  let s := cout (displayStats p) s in
  let s := cout (displayStats enemy) s in
  let s := cout action_text s in
  let (action, i) := IOS.extract_int (cin s) 0 in
  let s := set_cin i s in
  if action =? 1 then
    let (line, c) := attack p (base enemy) in
    let s := cout line s in
    let enemy := set_base c enemy in
    if getHealth (base enemy) >? 0 then
      let (line, c) := attack enemy (base p) in
      let s := cout line s in
      Ret (Continue, enemy, set_player (Some (set_base c p)) s)
    else Ret (Continue, enemy, s)
  else if action =? 2 then
    let (line, p) := collectTreasure p in
    Ret (Continue, enemy, set_player (Some p) (cout line s))
  else if action =? 3 then
    s <- saveGame s ;;
    Ret (Return, enemy, set_player None s)
  else
    Ret (Continue, enemy, cerr ("Invalid action. Try again." ++ nl) s).

(** The [while] loop of [Game::play]: the test, then the body. *)
Fixpoint play_loop (fuel : nat) (enemy : Enemy) (s : State)
  : outcome (flow * Enemy * State) :=
  p <- deref s ;;
  if (getHealth (base p) >? 0) && (getHealth (base enemy) >? 0) then
    match fuel with
    | O => OutOfFuel
    | S fuel =>
        '(f, enemy, s) <- play_body enemy s ;;
        match f with
        | Return => Ret (Return, enemy, s)
        | Continue => play_loop fuel enemy s
        end
    end
  else Ret (Continue, enemy, s).

(** What [Game::play] does after the loop. *)
Definition play_end (enemy : Enemy) (s : State) : outcome State :=
  p <- deref s ;;
  let s :=
    if getHealth (base p) <=? 0 then cout defeat_text s
    else if getHealth (base enemy) <=? 0 then cout victory_text s
    else s in
  Ret (set_player None s).

(** [Game::play] *)
Definition play (fuel : nat) (s : State) : outcome State :=
  let enemy := new_Enemy "Goblin" in
  '(f, enemy, s) <- play_loop fuel enemy s ;;
  match f with
  | Return => Ret s
  | Continue => play_end enemy s
  end.

(** [Game::startGame] *)
Definition startGame (fuel : nat) (s : State) : outcome State :=
  let s := cout "Enter your name: " s in
  let (playerName, i) := IOS.extract_string (cin s) "" in
  let s := set_cin i s in
  let s := set_player (Some (new_Player playerName)) s in
  let s := cout ("Starting new game..." ++ nl) s in
  play fuel s.

(** The statements of [Game::loadGame] between the test of the stream and
    the call of [play]: the state that [play] is entered with. *)
Definition loadGame_restore (file : IOS.istream) (s : State) : State :=
  let (playerName, file) := IOS.extract_string file "" in
  let (playerHealth, file) := IOS.extract_int file indeterminate in
  let p := new_Player playerName in
  let p := set_base (takeDamage (Int.sub 100 playerHealth) (base p)) p in
  cout ("Game state loaded successfully." ++ nl) (set_player (Some p) s).

(** [Game::loadGame] *)
Definition loadGame (fuel : nat) (s : State) : outcome State :=
  match ifstream_open s with
  | None =>
      Ret (cerr ("Error loading game: " ++ what "Failed to open file for loading." ++ nl) s)
  | Some file => play fuel (loadGame_restore file s)
  end.

(** The body of the [while] loop of [Game::displayMenu]; it returns the new
    value of [choice]. *)
Definition displayMenu_body (fuel : nat) (choice : Z) (s : State)
  : outcome (Z * State) :=
  let s := cout menu_text s in
  let s := cout "Choose an option: " s in
  let (choice, i) := IOS.extract_int (cin s) choice in
  let s := set_cin i s in
  if choice =? 1 then s <- startGame fuel s ;; Ret (choice, s)
  else if choice =? 2 then s <- loadGame fuel s ;; Ret (choice, s)
  else if choice =? 3 then
    Ret (choice, cout ("Thank you for playing Mystic Quest!" ++ nl) s)
  else Ret (choice, cerr ("Invalid choice. Please try again." ++ nl) s).

(** The [while (choice != 3)] loop of [Game::displayMenu]. *)
Fixpoint displayMenu_loop (fuel : nat) (choice : Z) (s : State) : outcome State :=
  if choice =? 3 then Ret s
  else
    match fuel with
    | O => OutOfFuel
    | S fuel =>
        '(choice, s) <- displayMenu_body fuel choice s ;;
        displayMenu_loop fuel choice s
    end.

(** [Game::displayMenu] *)
Definition displayMenu (fuel : nat) (s : State) : outcome State :=
  displayMenu_loop fuel 0 s.

End Game.

(** * Notions used in the statements *)

(** ** States along an iteration of the combat loop *)

(** The state once the statistics and the prompt are shown and the action
    is read. *)
Definition prompted (p : Player) (enemy : Enemy) (i : IOS.istream) (s : State) : State :=
  set_cin i (cout action_text (cout (displayStats enemy) (cout (displayStats p) s))).

(** The console after the three lines that open every iteration. *)
Definition shown (p : Player) (enemy : Enemy) (s : State) : list Out :=
  console s ++ [Cout (displayStats p); Cout (displayStats enemy); Cout action_text].

(** The state after an attack that the enemy answers, and after one that
    it does not. *)
Definition attack_answered (p : Player) (enemy : Enemy) (i : IOS.istream) (s : State)
  : State :=
  set_player (Some (set_base (takeDamage 15 (base p)) p))
    (cout (getName (base enemy) ++ " attacks the player!" ++ nl)
       (cout (getName (base p) ++ " attacks the enemy!" ++ nl) (prompted p enemy i s))).

Definition attack_unanswered (p : Player) (enemy : Enemy) (i : IOS.istream) (s : State)
  : State :=
  cout (getName (base p) ++ " attacks the enemy!" ++ nl) (prompted p enemy i s).

(** A state with the given input and file, an empty console, and a file
    that can be opened both ways. *)
Definition concrete_state (input : string) (file : option string) (p : option Player)
  : State :=
  {| cin := IOS.open input; console := [];
     file_content := file; file_readable := true; file_writable := true;
     player := p |}.

(** [iterates what enemy s enemy' s' n]: from the loop test at
    [(enemy, s)], [n] iterations pass the test, run to their end without
    the [return], and come back to the test at [(enemy', s')]. *)
Inductive iterates (what : string -> string)
  : Enemy -> State -> Enemy -> State -> nat -> Prop :=
| iterates_none (enemy : Enemy) (s : State) :
    iterates what enemy s enemy s 0
| iterates_more (enemy e1 e2 : Enemy) (s s1 s2 : State) (p : Player) (n : nat) :
    player s = Some p ->
    0 < getHealth (base p) -> 0 < getHealth (base enemy) ->
    play_body what enemy s = Ret (Continue, e1, s1) ->
    iterates what e1 s1 e2 s2 n ->
    iterates what enemy s e2 s2 (S n).

(** ** Text that reads back *)

(** A name that [operator>>] reads back as it is: not empty, no white space. *)
Fixpoint no_space (s : string) : bool :=
  match s with
  | EmptyString => true
  | String c s' => negb (IOS.isspace c) && no_space s'
  end.

Definition is_token (s : string) : bool := negb (IOS.is_empty s) && no_space s.

(** The value of a run of decimal digits read after [acc]. *)
Fixpoint digits_value (d : Decimal.uint) (acc : Z) : Z :=
  match d with
  | Decimal.Nil => acc
  | Decimal.D0 d => digits_value d (10 * acc + 0)
  | Decimal.D1 d => digits_value d (10 * acc + 1)
  | Decimal.D2 d => digits_value d (10 * acc + 2)
  | Decimal.D3 d => digits_value d (10 * acc + 3)
  | Decimal.D4 d => digits_value d (10 * acc + 4)
  | Decimal.D5 d => digits_value d (10 * acc + 5)
  | Decimal.D6 d => digits_value d (10 * acc + 6)
  | Decimal.D7 d => digits_value d (10 * acc + 7)
  | Decimal.D8 d => digits_value d (10 * acc + 8)
  | Decimal.D9 d => digits_value d (10 * acc + 9)
  end.

(** ** Outcome messages *)

(** The two outcome messages of [play]. *)
Definition is_outcome (o : Out) : bool :=
  match o with
  | Cout text => String.eqb text defeat_text || String.eqb text victory_text
  | Cerr _ => false
  end.

Definition no_outcome (l : list Out) : Prop := Forall (fun o => is_outcome o = false) l.

(** ** Combatants and the public operations *)

(** A combatant of either class, and what the public operations make of
    it: [takeDamage] with any amount, being the target of an [attack],
    attacking (which leaves the attacker as it is), [collectTreasure] on a
    player, and the adjustment [takeDamage(100 - saved)] of [loadGame]. *)
Inductive Combatant : Type :=
| APlayer (p : Player)
| AnEnemy (e : Enemy).

Definition combatant_base (c : Combatant) : Character :=
  match c with
  | APlayer p => base p
  | AnEnemy e => base e
  end.

Definition combatant_update (k : Character -> Character) (c : Combatant) : Combatant :=
  match c with
  | APlayer p => APlayer (set_base (k (base p)) p)
  | AnEnemy e => AnEnemy (set_base (k (base e)) e)
  end.

Definition combatant_attack (attacker : Combatant) (target : Character) : Character :=
  match attacker with
  | APlayer p => snd (attack p target)
  | AnEnemy e => snd (attack e target)
  end.

Inductive operation : Combatant -> Combatant -> Prop :=
| op_takeDamage (d : Z) (c : Combatant) :
    operation c (combatant_update (takeDamage d) c)
| op_attacked (attacker c : Combatant) :
    operation c (combatant_update (combatant_attack attacker) c)
| op_attacks (c : Combatant) :
    operation c c
| op_collectTreasure (p : Player) :
    operation (APlayer p) (APlayer (snd (collectTreasure p)))
| op_load_adjustment (saved : Z) (p : Player) :
    operation (APlayer p)
      (APlayer (set_base (takeDamage (Int.sub 100 saved) (base p)) p)).

Inductive reachable : Combatant -> Prop :=
| reach_new_Player (n : string) : reachable (APlayer (new_Player n))
| reach_new_Enemy (n : string) : reachable (AnEnemy (new_Enemy n))
| reach_operation (c c' : Combatant) :
    reachable c -> operation c c' -> reachable c'.

(** The player that [Game] holds, if any, has a health of 0 or more. *)
Definition healthy (s : State) : Prop :=
  forall p, player s = Some p -> 0 <= getHealth (base p).

(** ** A game started anew *)

(** The health of the player and of the enemy at the loop test of a game
    that [startGame] has started: the four pairs that attacks lead
    through. *)
Definition fresh_pair (hp he : Z) : Prop :=
  (hp = 100 /\ he = 50) \/ (hp = 85 /\ he = 30) \/
  (hp = 70 /\ he = 10) \/ (hp = 70 /\ he = 0).

Definition fresh_game (enemy : Enemy) (s : State) : Prop :=
  exists p, player s = Some p /\
            fresh_pair (getHealth (base p)) (getHealth (base enemy)).

Definition farewell_text : string := "Thank you for playing Mystic Quest!" ++ nl.

(** ** A game entered with any health *)

(** The pairs of healths at the loop test of a game entered with the
    player at [h] and the enemy at 50: for [h] above 30 the player
    outlasts the enemy, for [h] of 30 or less it does not. *)
Definition strong_pair (h hp he : Z) : Prop :=
  (hp = h /\ he = 50) \/ (hp = h - 15 /\ he = 30) \/
  (hp = h - 30 /\ he = 10) \/ (hp = h - 30 /\ he = 0).

Definition weak_pair (h hp he : Z) : Prop :=
  (hp = h /\ he = 50) \/ (hp = Z.max 0 (h - 15) /\ he = 30) \/ (hp = 0 /\ he = 10).

Definition at_pair (pair : Z -> Z -> Prop) (enemy : Enemy) (s : State) : Prop :=
  exists p, player s = Some p /\ pair (getHealth (base p)) (getHealth (base enemy)).

(** * Properties *)

(** ** Arithmetic of [int] *)

Module IntFacts.
Import Int.

Lemma wrap_in_range (z : Z) : in_range (wrap z).
Proof.
  unfold in_range, wrap, min_int, max_int, modulus.
  pose proof (Z.mod_pos_bound (z - -2147483648) 4294967296 eq_refl). lia.
Qed.

Lemma wrap_small (z : Z) : in_range z -> wrap z = z.
Proof.
  unfold in_range, wrap, min_int, max_int, modulus. intros H.
  rewrite Z.mod_small by lia. lia.
Qed.

(** Subtracting twice from the same value gives the operand back, also
    across a wrap. *)
Lemma wrap_sub_sub (a b : Z) : wrap (a - wrap (a - b)) = wrap b.
Proof.
  unfold wrap, min_int, modulus.
  rewrite (Z.mod_eq (a - b - -2147483648) 4294967296) by lia.
  set (q := (a - b - -2147483648) / 4294967296).
  replace (a - (a - b - -2147483648 - 4294967296 * q + -2147483648) - -2147483648)
    with (b - -2147483648 + q * 4294967296) by lia.
  rewrite Z.mod_add by lia. reflexivity.
Qed.

Lemma saturate_in_range (z : Z) : in_range (saturate z).
Proof.
  unfold in_range, saturate, min_int, max_int.
  destruct (Z.ltb_spec z (-2147483648)); [lia|].
  destruct (Z.ltb_spec 2147483647 z); lia.
Qed.

End IntFacts.

(** ** [takeDamage] *)

Lemma takeDamage_name (d : Z) (c : Character) : name (takeDamage d c) = name c.
Proof. reflexivity. Qed.

Lemma takeDamage_nonneg (d : Z) (c : Character) : 0 <= health (takeDamage d c).
Proof.
  unfold takeDamage; simpl.
  destruct (Z.ltb_spec (Int.sub (health c) d) 0); lia.
Qed.

Lemma takeDamage_in_range (d : Z) (c : Character) :
  Int.in_range (health (takeDamage d c)).
Proof.
  unfold takeDamage; simpl.
  pose proof (IntFacts.wrap_in_range (health c - d)) as Hr.
  unfold Int.sub. unfold Int.in_range, Int.min_int, Int.max_int in *.
  destruct (Z.ltb_spec (Int.wrap (health c - d)) 0); lia.
Qed.

(** Without a wrap in [health - damage] the result is the clamped
    difference, whatever the sign of the damage. *)
Lemma takeDamage_no_wrap (d : Z) (c : Character) :
  Int.in_range (health c - d) ->
  health (takeDamage d c) = Z.max 0 (health c - d).
Proof.
  intros Hr. unfold takeDamage, Int.sub; simpl.
  rewrite IntFacts.wrap_small by assumption.
  destruct (Z.ltb_spec (health c - d) 0); lia.
Qed.

(** C1. For a health [h >= 0] and a damage [d >= 0], both values of [int],
    [takeDamage(d)] leaves the health at [max(0, h - d)]: it is 0, not
    negative, when [d > h], and it is unchanged when [d = 0]. *)
Theorem takeDamage_clamped_difference (n : string) (h d : Z) :
  0 <= h <= Int.max_int -> 0 <= d <= Int.max_int ->
  let c := takeDamage d {| name := n; health := h |} in
  health c = Z.max 0 (h - d) /\
  (d > h -> health c = 0) /\
  (d = 0 -> health c = h) /\
  name c = n.
Proof.
  intros Hh Hd c.
  assert (E : health c = Z.max 0 (h - d)).
  { subst c. rewrite takeDamage_no_wrap; simpl; [reflexivity|].
    unfold Int.in_range, Int.min_int, Int.max_int in *. lia. }
  rewrite E. repeat split; intros; lia.
Qed.

Lemma takeDamage_clamped_difference_witness :
  let c := takeDamage 30 {| name := "Hero"; health := 20 |} in
  health c = Z.max 0 (20 - 30) /\
  (30 > 20 -> health c = 0) /\
  (30 = 0 -> health c = 20) /\
  name c = "Hero".
Proof.
  apply (takeDamage_clamped_difference "Hero" 20 30);
    unfold Int.max_int; lia.
Defined.

(** ** Formatted input *)

Lemma extract_int_in_range (s : IOS.istream) (n : Z) :
  Int.in_range n -> Int.in_range (fst (IOS.extract_int s n)).
Proof.
  intros Hn. unfold IOS.extract_int.
  destruct (IOS.sentry s) as [[|] s1]; [|exact Hn].
  destruct (IOS.take_sign (IOS.rdbuf s1)) as [neg t].
  destruct (IOS.take_digits None t) as [[m|] r]; simpl.
  - apply IntFacts.saturate_in_range.
  - unfold Int.in_range, Int.min_int, Int.max_int. lia.
Qed.

(** An extraction that passes the sentry and finds no digit stores 0 and
    sets [failbit]. *)
Lemma extract_int_no_digits (s s1 : IOS.istream) (n : Z) :
  IOS.sentry s = (true, s1) ->
  fst (IOS.take_digits None (snd (IOS.take_sign (IOS.rdbuf s1)))) = None ->
  fst (IOS.extract_int s n) = 0 /\
  IOS.failbit (snd (IOS.extract_int s n)) = true.
Proof.
  intros Hs Hd. unfold IOS.extract_int. rewrite Hs.
  destruct (IOS.take_sign (IOS.rdbuf s1)) as [neg t]. simpl in Hd.
  destruct (IOS.take_digits None t) as [digits r]. simpl in Hd. subst digits.
  split; reflexivity.
Qed.

(** An extraction stopped by the sentry stores nothing. *)
Lemma extract_int_sentry_fails (s s1 : IOS.istream) (n : Z) :
  IOS.sentry s = (false, s1) -> IOS.extract_int s n = (n, s1).
Proof. intros Hs. unfold IOS.extract_int. rewrite Hs. reflexivity. Qed.

(** ** Loading *)

(** The player that [loadGame] hands to [play]: the name read, and the
    health read clamped at 0 from below only. *)
Lemma loadGame_restore_player (indeterminate : Z) (file : IOS.istream) (s : State) :
  Int.in_range indeterminate ->
  let n := fst (IOS.extract_string file "") in
  let v := fst (IOS.extract_int (snd (IOS.extract_string file "")) indeterminate) in
  loadGame_restore indeterminate file s =
  cout ("Game state loaded successfully." ++ nl)
    (set_player
       (Some {| player_base := {| name := n; health := Z.max 0 v |};
                treasuresCollected := 0 |}) s).
Proof.
  intros Hi n v. unfold loadGame_restore. subst n v.
  destruct (IOS.extract_string file "") as [n f1]. simpl fst; simpl snd.
  pose proof (extract_int_in_range f1 indeterminate Hi) as Hv.
  destruct (IOS.extract_int f1 indeterminate) as [v f2]. simpl fst in *.
  unfold new_Player. cbn [set_base base Player_ops player_base treasuresCollected].
  unfold takeDamage, Int.sub. cbn [health name].
  rewrite IntFacts.wrap_sub_sub, IntFacts.wrap_small by assumption.
  do 5 f_equal. destruct (Z.ltb_spec v 0); lia.
Qed.

(** C6 (amended). For every health value [v] that [loadGame] reads, the
    loaded player's health is [max(0, v)]: it is at most 100 exactly when
    [v] is, and a recorded value above 100 is restored as it stands, the
    negative damage raising the health above the default. *)
Theorem loadGame_restores_read_health
  (indeterminate : Z) (file : IOS.istream) (s : State) :
  Int.in_range indeterminate ->
  let v := fst (IOS.extract_int (snd (IOS.extract_string file "")) indeterminate) in
  exists p,
    player (loadGame_restore indeterminate file s) = Some p /\
    getHealth (base p) = Z.max 0 v /\
    (getHealth (base p) <= 100 <-> v <= 100) /\
    (100 < v -> getHealth (base p) = v).
Proof.
  intros Hi v. rewrite loadGame_restore_player by assumption.
  eexists. split; [reflexivity|]. simpl. fold v. repeat split; intros; lia.
Qed.

Lemma loadGame_restores_read_health_witness :
  let file := IOS.open ("Hero" ++ nl ++ "150" ++ nl) in
  let v := fst (IOS.extract_int (snd (IOS.extract_string file "")) 0) in
  exists p,
    player (loadGame_restore 0 file (concrete_state "" None None)) = Some p /\
    getHealth (base p) = Z.max 0 v /\
    (getHealth (base p) <= 100 <-> v <= 100) /\
    (100 < v -> getHealth (base p) = v).
Proof.
  apply (loadGame_restores_read_health 0).
  unfold Int.in_range, Int.min_int, Int.max_int. lia.
Defined.

(** C6, as the claim has it, fails: a file that records the health 150
    loads as a player of health 150. *)
Lemma loadGame_health_above_default :
  exists p,
    player (loadGame_restore 0 (IOS.open ("Hero" ++ nl ++ "150" ++ nl))
              (concrete_state "" None None)) = Some p /\
    getHealth (base p) = 150 /\
    ~ getHealth (base p) <= 100.
Proof.
  eexists. split; [vm_compute; reflexivity|]. simpl. split; [reflexivity|lia].
Qed.

(** ** Saving, then loading *)

Lemma saveGame_writable (what : string -> string) (s : State) (p : Player) :
  file_writable s = true -> player s = Some p ->
  saveGame what s =
  Ret (cout ("Game state saved successfully." ++ nl)
         (set_file (getName (base p) ++ nl ++ show_int (getHealth (base p)) ++ nl) s)).
Proof.
  intros Hw Hp. unfold saveGame, ofstream_open, deref. rewrite Hw, Hp. reflexivity.
Qed.

Lemma saveGame_not_writable (what : string -> string) (s : State) :
  file_writable s = false ->
  saveGame what s =
  Ret (cerr ("Error saving game: " ++ what "Failed to open file for saving." ++ nl) s).
Proof. intros Hw. unfold saveGame, ofstream_open. rewrite Hw. reflexivity. Qed.

(** C2. Saving the player "Hero" of health 80 writes the two lines
    [Hero] and [80]; [loadGame] on a state that holds this file opens it,
    reads the name "Hero" and the health 80, builds a player "Hero" at the
    default health 100, applies the damage 100 - 80 = 20, and enters
    [play] with exactly this state: the state it was called on, the
    confirmation line, and the player "Hero" of health 80. *)
Theorem save_then_load_Hero_80
  (what : string -> string) (indeterminate : Z) (fuel : nat) (s : State) (t : Z) :
  file_writable s = true ->
  player s = Some {| player_base := {| name := "Hero"; health := 80 |};
                     treasuresCollected := t |} ->
  let text := "Hero" ++ nl ++ "80" ++ nl in
  let loaded := {| player_base := {| name := "Hero"; health := 80 |};
                   treasuresCollected := 0 |} in
  saveGame what s =
    Ret (cout ("Game state saved successfully." ++ nl) (set_file text s)) /\
  forall s2,
    file_content s2 = Some text -> file_readable s2 = true ->
    ifstream_open s2 = Some (IOS.open text) /\
    fst (IOS.extract_string (IOS.open text) "") = "Hero" /\
    fst (IOS.extract_int (snd (IOS.extract_string (IOS.open text) "")) indeterminate)
      = 80 /\
    loaded = set_base (takeDamage (100 - 80) (base (new_Player "Hero")))
               (new_Player "Hero") /\
    loadGame_restore indeterminate (IOS.open text) s2 =
      cout ("Game state loaded successfully." ++ nl) (set_player (Some loaded) s2) /\
    loadGame what indeterminate fuel s2 =
      play what fuel
        (cout ("Game state loaded successfully." ++ nl) (set_player (Some loaded) s2)).
Proof.
  intros Hw Hp text loaded.
  split; [exact (saveGame_writable what s _ Hw Hp)|].
  intros s2 Hc Hr.
  assert (Ho : ifstream_open s2 = Some (IOS.open text))
    by (unfold ifstream_open; rewrite Hc, Hr; reflexivity).
  split; [exact Ho|]. split; [reflexivity|]. split; [reflexivity|].
  split; [reflexivity|]. split; [reflexivity|].
  unfold loadGame. rewrite Ho. reflexivity.
Qed.

Lemma save_then_load_Hero_80_witness :
  let s := concrete_state "" None
             (Some {| player_base := {| name := "Hero"; health := 80 |};
                      treasuresCollected := 4 |}) in
  exists s1 s',
    saveGame (fun m => m) s = Ret s1 /\
    file_content s1 = Some ("Hero" ++ nl ++ "80" ++ nl) /\
    loadGame (fun m => m) 7 5 (set_cin (IOS.open "1 1 1") (set_player None s1)) = Ret s' /\
    nth_error (console s') 2
      = Some (Cout ("Player: Hero, Health: 80, Treasures: 0" ++ nl)) /\
    player s' = None.
Proof.
  intros s.
  destruct (save_then_load_Hero_80 (fun m => m) 7 5 s 4 eq_refl eq_refl)
    as [Hsave Hload].
  eexists. eexists. split; [exact Hsave|]. split; [reflexivity|].
  match goal with
  | |- loadGame _ _ _ ?s2 = _ /\ _ =>
      destruct (Hload s2 eq_refl eq_refl) as (_ & _ & _ & _ & _ & Hl)
  end.
  split; [rewrite Hl; vm_compute; reflexivity|].
  split; reflexivity.
Defined.

(** ** Saving, then loading: any token and any health *)

Lemma digits_value_pos (d : Decimal.uint) :
  forall p, digits_value d (Z.pos p) = Z.pos (Pos.of_uint_acc d p).
Proof.
  induction d; intros p; cbn [digits_value Pos.of_uint_acc];
    try reflexivity;
    match goal with
    | |- digits_value _ ?a = Z.pos (Pos.of_uint_acc _ ?q) =>
        replace a with (Z.pos q) by lia; apply IHd
    end.
Qed.

Lemma digits_value_zero (d : Decimal.uint) : digits_value d 0 = Z.of_uint d.
Proof.
  unfold Z.of_uint.
  induction d; cbn [digits_value Pos.of_uint]; try reflexivity;
    try (change (10 * 0 + 0) with 0; exact IHd);
    match goal with
    | |- digits_value _ ?a = _ => 
        let v := eval compute in a in change a with v; apply digits_value_pos
    end.
Qed.

Lemma take_digits_uint (d : Decimal.uint) :
  forall a rest,
  IOS.take_digits (Some a) (NilEmpty.string_of_uint d ++ rest) =
  IOS.take_digits (Some (digits_value d a)) rest.
Proof.
  induction d; intros a rest; cbn [NilEmpty.string_of_uint digits_value];
    try reflexivity; apply IHd.
Qed.

Lemma take_digits_stops (v : Z) (rest : string) :
  IOS.take_digits (Some v) (nl ++ rest) = (Some v, nl ++ rest).
Proof. reflexivity. Qed.

Lemma take_digits_show_int (h : Z) (rest : string) :
  0 <= h ->
  IOS.take_digits None (show_int h ++ nl ++ rest) = (Some h, nl ++ rest).
Proof.
  intros Hh. unfold show_int.
  pose proof (DecimalZ.of_to h) as Hof.
  destruct h as [|p|p]; [reflexivity| |lia].
  cbn [Z.to_int NilZero.string_of_int] in *. cbn [Z.of_int] in Hof.
  pose proof (DecimalPos.Unsigned.to_uint_nonnil p) as Hnn.
  rewrite <- digits_value_zero in Hof.
  destruct (Pos.to_uint p) as [|d|d|d|d|d|d|d|d|d|d]; [contradiction| ..];
    cbn [NilZero.string_of_uint NilEmpty.string_of_uint];
    cbn [digits_value] in Hof;
    (etransitivity; [apply (take_digits_uint d)|]);
    rewrite take_digits_stops; do 2 f_equal; exact Hof.
Qed.

Lemma show_int_head (h : Z) (rest : string) :
  0 <= h ->
  exists c t, show_int h ++ rest = String c t /\
              IOS.isspace c = false /\ IOS.take_sign (String c t) = (false, String c t).
Proof.
  intros Hh. unfold show_int.
  destruct h as [|p|p]; [do 2 eexists; repeat split| |lia].
  cbn [Z.to_int NilZero.string_of_int].
  pose proof (DecimalPos.Unsigned.to_uint_nonnil p) as Hnn.
  destruct (Pos.to_uint p); [contradiction| ..]; do 2 eexists; repeat split.
Qed.

Lemma extract_int_show_int (h n0 : Z) (rest : string) :
  0 <= h <= Int.max_int ->
  IOS.extract_int (IOS.mkIstream (nl ++ show_int h ++ nl ++ rest) false false) n0 =
  (h, IOS.mkIstream (nl ++ rest) false false).
Proof.
  intros Hh. unfold IOS.extract_int, IOS.sentry.
  cbn [IOS.good IOS.eofbit IOS.failbit negb andb IOS.rdbuf].
  change (IOS.skipws (nl ++ show_int h ++ nl ++ rest))
    with (IOS.skipws (show_int h ++ nl ++ rest)).
  pose proof (take_digits_show_int h rest (proj1 Hh)) as Hd.
  destruct (show_int_head h (nl ++ rest) (proj1 Hh)) as (c & t & Hs & Hc & Hsign).
  rewrite Hs in *. cbn [IOS.skipws]. rewrite Hc. cbn [IOS.is_empty IOS.rdbuf].
  rewrite Hsign, Hd.
  unfold Int.saturate, Int.min_int, Int.max_int in *.
  destruct (Z.ltb_spec h (-2147483648)); [lia|].
  destruct (Z.ltb_spec 2147483647 h); [lia|].
  destruct (Z.leb_spec (-2147483648) h); [|lia].
  destruct (Z.leb_spec h 2147483647); [|lia].
  reflexivity.
Qed.

Lemma take_word_token (n rest : string) :
  no_space n = true -> IOS.take_word (n ++ nl ++ rest) = (n, nl ++ rest).
Proof.
  induction n as [|c n IH]; intros Hn.
  - reflexivity.
  - cbn [no_space] in Hn. apply andb_prop in Hn. destruct Hn as [Hc Hn].
    cbn [append IOS.take_word]. apply negb_true_iff in Hc. rewrite Hc.
    rewrite (IH Hn). reflexivity.
Qed.

Lemma extract_string_token (n rest str : string) :
  is_token n = true ->
  IOS.extract_string (IOS.open (n ++ nl ++ rest)) str =
  (n, IOS.mkIstream (nl ++ rest) false false).
Proof.
  unfold is_token. intros Hn. apply andb_prop in Hn. destruct Hn as [He Hn].
  unfold IOS.extract_string, IOS.sentry, IOS.open.
  cbn [IOS.good IOS.eofbit IOS.failbit negb andb IOS.rdbuf].
  destruct n as [|c n]; [discriminate|].
  pose proof (take_word_token (String c n) rest Hn) as Hw.
  cbn [no_space] in Hn. apply andb_prop in Hn. destruct Hn as [Hc _].
  apply negb_true_iff in Hc.
  cbn [append IOS.skipws]. rewrite Hc. cbn [IOS.is_empty IOS.rdbuf].
  cbn [append] in Hw. rewrite Hw. reflexivity.
Qed.

(** X17. Saving and loading give back the name and the health of any
    player whose name is a token and whose health is a non-negative
    [int]; the treasure counter comes back as 0. *)
Lemma save_load_round_trip
  (what : string -> string) (indeterminate : Z) (s : State) (p : Player) :
  file_writable s = true ->
  player s = Some p ->
  is_token (getName (base p)) = true ->
  0 <= getHealth (base p) <= Int.max_int ->
  exists s1,
    saveGame what s = Ret s1 /\
    forall s2,
      file_content s2 = file_content s1 -> file_readable s2 = true ->
      exists file,
        ifstream_open s2 = Some file /\
        player (loadGame_restore indeterminate file s2) =
        Some {| player_base := base p; treasuresCollected := 0 |}.
Proof.
  intros Hw Hp Hn Hh. eexists. split; [apply (saveGame_writable what s p Hw Hp)|].
  intros s2 Hc Hr. cbn [file_content cout put set_file] in Hc.
  unfold ifstream_open. rewrite Hc, Hr. eexists. split; [reflexivity|].
  unfold loadGame_restore.
  rewrite (extract_string_token _ (show_int (getHealth (base p)) ++ nl) "" Hn).
  pose proof (extract_int_show_int (getHealth (base p)) indeterminate "" Hh) as Hx.
  change (nl ++ "") with nl in Hx. rewrite Hx.
  cbn [player cout put set_player]. f_equal.
  destruct p as [[n h] t]. cbn [base Player_ops player_base getHealth getName health name] in *.
  unfold new_Player. cbn [set_base base Player_ops player_base treasuresCollected].
  f_equal. unfold takeDamage, Int.sub. cbn [health name].
  rewrite IntFacts.wrap_sub_sub.
  rewrite IntFacts.wrap_small
    by (unfold Int.in_range, Int.min_int, Int.max_int in *; lia).
  destruct (Z.ltb_spec h 0); [lia|reflexivity].
Qed.

(** ** The four ways through an iteration *)

(** [play_body] once the player and the action read are known. *)
Lemma play_body_eq
  (what : string -> string) (enemy : Enemy) (s : State) (p : Player) (a : Z)
  (i : IOS.istream) :
  player s = Some p -> IOS.extract_int (cin s) 0 = (a, i) ->
  play_body what enemy s =
  if a =? 1 then
    if getHealth (base (set_base (takeDamage 20 (base enemy)) enemy)) >? 0 then
      Ret (Continue, set_base (takeDamage 20 (base enemy)) enemy,
           set_player (Some (set_base (takeDamage 15 (base p)) p))
             (cout (getName (base enemy) ++ " attacks the player!" ++ nl)
                (cout (getName (base p) ++ " attacks the enemy!" ++ nl)
                   (prompted p enemy i s))))
    else
      Ret (Continue, set_base (takeDamage 20 (base enemy)) enemy,
           cout (getName (base p) ++ " attacks the enemy!" ++ nl) (prompted p enemy i s))
  else if a =? 2 then
    Ret (Continue, enemy,
         set_player (Some (snd (collectTreasure p)))
           (cout (fst (collectTreasure p)) (prompted p enemy i s)))
  else if a =? 3 then
    s2 <- saveGame what (prompted p enemy i s) ;;
    Ret (Return, enemy, set_player None s2)
  else
    Ret (Continue, enemy, cerr ("Invalid action. Try again." ++ nl) (prompted p enemy i s)).
Proof.
  intros Hp Ha. unfold play_body, deref. rewrite Hp. cbn [bind].
  cbn [cin cout put]. rewrite Ha.
  destruct (a =? 1); [|reflexivity].
  cbn [attack Player_ops Player_attack Enemy_ops Enemy_attack].
  reflexivity.
Qed.

Lemma play_body_cases
  (what : string -> string) (enemy enemy' : Enemy) (s s' : State) (f : flow) :
  play_body what enemy s = Ret (f, enemy', s') ->
  exists p a i,
    player s = Some p /\ IOS.extract_int (cin s) 0 = (a, i) /\
    ((a = 1 /\ f = Continue /\
      enemy' = set_base (takeDamage 20 (base enemy)) enemy /\
      ((getHealth (base enemy') > 0 /\
        s' = set_player (Some (set_base (takeDamage 15 (base p)) p))
               (cout (getName (base enemy) ++ " attacks the player!" ++ nl)
                  (cout (getName (base p) ++ " attacks the enemy!" ++ nl)
                     (prompted p enemy i s)))) \/
       (getHealth (base enemy') <= 0 /\
        s' = cout (getName (base p) ++ " attacks the enemy!" ++ nl)
               (prompted p enemy i s)))) \/
     (a = 2 /\ f = Continue /\ enemy' = enemy /\
      s' = set_player (Some (snd (collectTreasure p)))
             (cout (fst (collectTreasure p)) (prompted p enemy i s))) \/
     (a = 3 /\ f = Return /\ enemy' = enemy /\
      exists s2, saveGame what (prompted p enemy i s) = Ret s2 /\
                 s' = set_player None s2) \/
     (a <> 1 /\ a <> 2 /\ a <> 3 /\ f = Continue /\ enemy' = enemy /\
      s' = cerr ("Invalid action. Try again." ++ nl) (prompted p enemy i s))).
Proof.
  intros H.
  assert (Hd : exists p, player s = Some p).
  { unfold play_body, deref in H. destruct (player s) as [p|]; [eauto|discriminate]. }
  destruct Hd as [p Hp].
  destruct (IOS.extract_int (cin s) 0) as [a i] eqn:Ha.
  rewrite (play_body_eq what enemy s p a i Hp Ha) in H.
  exists p, a, i. split; [exact Hp|]. split; [reflexivity|].
  destruct (Z.eqb_spec a 1) as [E1|N1].
  { left.
    destruct (Z.gtb_spec (getHealth (base (set_base (takeDamage 20 (base enemy)) enemy))) 0)
      as [Hgt|Hle]; inversion H; subst f enemy' s'.
    - repeat split; try assumption. left. split; [apply Z.lt_gt; exact Hgt|reflexivity].
    - repeat split; try assumption. right. split; [exact Hle|reflexivity]. }
  destruct (Z.eqb_spec a 2) as [E2|N2].
  { right; left. inversion H; subst f enemy' s'.
    repeat split; assumption || reflexivity. }
  destruct (Z.eqb_spec a 3) as [E3|N3].
  { right; right; left.
    destruct (saveGame what (prompted p enemy i s)) as [s2| |] eqn:Hs;
      cbn [bind] in H; inversion H; subst f enemy' s'.
    repeat split; try assumption. exists s2. split; reflexivity. }
  right; right; right. inversion H; subst f enemy' s'.
  repeat split; assumption || reflexivity.
Qed.

(** ** One iteration of the combat loop *)

Lemma app_console (l : list Out) (a b c : Out) (rest : list Out) :
  ((((l ++ [a]) ++ [b]) ++ [c]) ++ rest = (l ++ [a; b; c]) ++ rest)%list.
Proof. repeat rewrite <- app_assoc. reflexivity. Qed.

Lemma play_loop_step
  (what : string -> string) (fuel : nat) (enemy enemy' : Enemy) (s s' : State)
  (p : Player) :
  player s = Some p ->
  0 < getHealth (base p) -> 0 < getHealth (base enemy) ->
  play_body what enemy s = Ret (Continue, enemy', s') ->
  play_loop what (S fuel) enemy s = play_loop what fuel enemy' s'.
Proof.
  intros Hp H1 H2 Hb. cbn [play_loop]. unfold deref at 1. rewrite Hp.
  cbn [bind].
  destruct (Z.gtb_spec (getHealth (base p)) 0); [|lia].
  destruct (Z.gtb_spec (getHealth (base enemy)) 0); [|lia].
  cbn [andb]. rewrite Hb. reflexivity.
Qed.

(** C3. In an iteration of the combat loop in which the action read is 1,
    the player's attack applies [takeDamage(20)] to the enemy, whose
    health becomes [max(0, h - 20)]; the enemy answers with
    [takeDamage(15)] on the player exactly when its health is still above
    0, and the console shows one attack line of the player and at most one
    of the enemy. *)
Theorem attack_iteration
  (what : string -> string) (fuel : nat) (enemy : Enemy) (s : State)
  (p : Player) (i : IOS.istream) :
  player s = Some p ->
  0 < getHealth (base p) <= Int.max_int ->
  0 < getHealth (base enemy) <= Int.max_int ->
  IOS.extract_int (cin s) 0 = (1, i) ->
  exists enemy' s' p',
    play_body what enemy s = Ret (Continue, enemy', s') /\
    play_loop what (S fuel) enemy s = play_loop what fuel enemy' s' /\
    base enemy' = takeDamage 20 (base enemy) /\
    getHealth (base enemy') = Z.max 0 (getHealth (base enemy) - 20) /\
    player s' = Some p' /\
    treasuresCollected p' = treasuresCollected p /\
    (getHealth (base enemy') > 0 ->
       base p' = takeDamage 15 (base p) /\
       getHealth (base p') = Z.max 0 (getHealth (base p) - 15) /\
       console s' =
         (shown p enemy s
            ++ [Cout (getName (base p) ++ " attacks the enemy!" ++ nl);
                Cout (getName (base enemy) ++ " attacks the player!" ++ nl)])%list) /\
    (getHealth (base enemy') <= 0 ->
       p' = p /\
       console s' =
         (shown p enemy s
            ++ [Cout (getName (base p) ++ " attacks the enemy!" ++ nl)])%list).
Proof.
  intros Hp Hhp Hhe Ha.
  assert (He' : getHealth (takeDamage 20 (base enemy))
                = Z.max 0 (getHealth (base enemy) - 20)).
  { apply takeDamage_no_wrap.
    unfold getHealth, Int.in_range, Int.min_int, Int.max_int in *. lia. }
  assert (Hp' : getHealth (takeDamage 15 (base p))
                = Z.max 0 (getHealth (base p) - 15)).
  { apply takeDamage_no_wrap.
    unfold getHealth, Int.in_range, Int.min_int, Int.max_int in *. lia. }
  assert (Hbody : exists enemy' s', play_body what enemy s = Ret (Continue, enemy', s') /\
            base enemy' = takeDamage 20 (base enemy) /\
            s' = (if getHealth (takeDamage 20 (base enemy)) >? 0
                  then attack_answered p enemy i s
                  else attack_unanswered p enemy i s)).
  { rewrite (play_body_eq what enemy s p 1 i Hp Ha). cbn [Z.eqb Pos.eqb].
    cbn [base set_base Enemy_ops enemy_base].
    destruct (getHealth (takeDamage 20 (enemy_base enemy)) >? 0);
      do 2 eexists; (split; [reflexivity|split; reflexivity]). }
  destruct Hbody as (enemy' & s' & Hb & Hbase & Hs').
  destruct (Z.gtb_spec (getHealth (takeDamage 20 (base enemy))) 0) as [Hgt|Hle].
  - exists enemy', s', (set_base (takeDamage 15 (base p)) p).
    split; [exact Hb|].
    split; [apply (play_loop_step what fuel enemy enemy' s s' p); tauto || lia|].
    split; [exact Hbase|]. rewrite Hbase.
    split; [exact He'|]. subst s'.
    split; [reflexivity|]. split; [reflexivity|].
    split; [intros _|intros; lia].
    split; [reflexivity|]. split; [exact Hp'|].
    unfold shown, attack_answered, prompted.
    cbn [console cout put set_player set_cin].
    rewrite app_console. rewrite <- !app_assoc. reflexivity.
  - exists enemy', s', p.
    split; [exact Hb|].
    split; [apply (play_loop_step what fuel enemy enemy' s s' p); tauto || lia|].
    split; [exact Hbase|]. rewrite Hbase.
    split; [exact He'|]. subst s'.
    split; [exact Hp|]. split; [reflexivity|].
    split; [intros; lia|intros _].
    split; [reflexivity|].
    unfold shown, attack_unanswered, prompted.
    cbn [console cout put set_player set_cin].
    rewrite app_console. reflexivity.
Qed.

Lemma attack_iteration_witness :
  let s := concrete_state "1" None (Some (new_Player "Hero")) in
  exists enemy' s' p',
    play_body (fun m => m) (new_Enemy "Goblin") s = Ret (Continue, enemy', s') /\
    getHealth (base enemy') = 30 /\
    player s' = Some p' /\
    getHealth (base p') = 85.
Proof.
  intros s.
  destruct (attack_iteration (fun m => m) 0 (new_Enemy "Goblin") s
              (new_Player "Hero") (snd (IOS.extract_int (cin s) 0)))
    as (enemy' & s' & p' & Hb & _ & _ & He & Hp & _ & Hgt & _).
  - reflexivity.
  - simpl. unfold Int.max_int. lia.
  - simpl. unfold Int.max_int. lia.
  - vm_compute. reflexivity.
  - exists enemy', s', p'.
    destruct Hgt as (_ & Hh & _); [rewrite He; reflexivity|].
    split; [exact Hb|]. split; [exact He|]. split; [exact Hp|exact Hh].
Defined.

(** An iteration in which the action read is 2: the counter goes through
    [treasuresCollected++], nothing else of the two combatants changes, and
    the console shows the treasure line only. *)
Lemma collect_iteration_body
  (what : string -> string) (enemy : Enemy) (s : State) (p : Player)
  (i : IOS.istream) :
  player s = Some p ->
  IOS.extract_int (cin s) 0 = (2, i) ->
  play_body what enemy s =
  Ret (Continue, enemy,
       set_player (Some (snd (collectTreasure p)))
         (cout (fst (collectTreasure p))
            (set_cin i (cout action_text
               (cout (displayStats enemy) (cout (displayStats p) s)))))).
Proof.
  intros Hp Ha. unfold play_body, deref. rewrite Hp. cbn [bind].
  cbn [cin cout put]. rewrite Ha. cbn [Z.eqb Pos.eqb]. reflexivity.
Qed.

(** C9 (amended). In an iteration of the combat loop in which the action
    read is 2 and the treasure counter is below the largest [int], the
    counter grows by exactly 1, the health of the player and of the enemy
    stay as they are, and the enemy does not attack: the iteration prints
    the treasure line and nothing after it. *)
Theorem collect_iteration
  (what : string -> string) (fuel : nat) (enemy : Enemy) (s : State)
  (p : Player) (i : IOS.istream) :
  player s = Some p ->
  0 < getHealth (base p) -> 0 < getHealth (base enemy) ->
  Int.min_int <= treasuresCollected p < Int.max_int ->
  IOS.extract_int (cin s) 0 = (2, i) ->
  exists s' p',
    play_body what enemy s = Ret (Continue, enemy, s') /\
    play_loop what (S fuel) enemy s = play_loop what fuel enemy s' /\
    player s' = Some p' /\
    treasuresCollected p' = treasuresCollected p + 1 /\
    base p' = base p /\
    console s' =
      (shown p enemy s
         ++ [Cout ("Collected a treasure! Total: "
                     ++ show_int (treasuresCollected p + 1) ++ nl)])%list.
Proof.
  intros Hp H1 H2 Ht Ha.
  pose proof (collect_iteration_body what enemy s p i Hp Ha) as Hb.
  assert (Hw : Int.add (treasuresCollected p) 1 = treasuresCollected p + 1).
  { apply IntFacts.wrap_small.
    unfold Int.in_range, Int.min_int, Int.max_int in *. lia. }
  eexists. exists (snd (collectTreasure p)).
  split; [exact Hb|].
  split; [exact (play_loop_step what fuel enemy enemy s _ p Hp H1 H2 Hb)|].
  split; [reflexivity|].
  split; [exact Hw|]. split; [reflexivity|].
  unfold shown, collectTreasure.
  cbn [console cout put set_player set_cin fst snd treasuresCollected].
  rewrite Hw. rewrite <- !app_assoc. reflexivity.
Qed.

Lemma collect_iteration_witness :
  let s := concrete_state "2" None (Some (new_Player "Hero")) in
  exists s' p',
    play_body (fun m => m) (new_Enemy "Goblin") s
      = Ret (Continue, new_Enemy "Goblin", s') /\
    player s' = Some p' /\
    treasuresCollected p' = 1 /\
    base p' = base (new_Player "Hero").
Proof.
  intros s.
  destruct (collect_iteration (fun m => m) 0 (new_Enemy "Goblin") s
              (new_Player "Hero") (snd (IOS.extract_int (cin s) 0)))
    as (s' & p' & Hb & _ & Hp & Ht & Hbase & _).
  - reflexivity.
  - simpl. lia.
  - simpl. lia.
  - simpl. unfold Int.min_int, Int.max_int. lia.
  - vm_compute. reflexivity.
  - exists s', p'. simpl in Ht. tauto.
Defined.

(** C9, as the claim has it, fails at the largest [int]: the increment
    wraps and the counter does not grow by 1. *)
Lemma collect_iteration_counter_wraps :
  let p := {| player_base := {| name := "Hero"; health := 100 |};
              treasuresCollected := 2147483647 |} in
  let s := concrete_state "2" None (Some p) in
  exists s' p',
    play_body (fun m => m) (new_Enemy "Goblin") s
      = Ret (Continue, new_Enemy "Goblin", s') /\
    player s' = Some p' /\
    treasuresCollected p' = -2147483648 /\
    treasuresCollected p' <> treasuresCollected p + 1.
Proof.
  intros p s. do 2 eexists.
  split; [vm_compute; reflexivity|].
  split; [reflexivity|]. simpl. split; [reflexivity|lia].
Qed.

(** X20. The counter of the counterexample is within reach of a new
    player: [n] treasure actions leave the counter at [n], wrapped. *)
Lemma collectTreasure_iter (n : nat) (nm : string) :
  treasuresCollected (Nat.iter n (fun p => snd (collectTreasure p)) (new_Player nm))
  = Int.wrap (Z.of_nat n).
Proof.
  induction n as [|n IH].
  - reflexivity.
  - change (Nat.iter (S n) (fun p => snd (collectTreasure p)) (new_Player nm))
      with (snd (collectTreasure
                   (Nat.iter n (fun p => snd (collectTreasure p)) (new_Player nm)))).
    unfold collectTreasure at 1. cbn [snd treasuresCollected].
    rewrite IH. unfold Int.add, Int.wrap, Int.modulus, Int.min_int.
    rewrite Nat2Z.inj_succ.
    replace ((Z.of_nat n - -2147483648) mod 4294967296 + -2147483648 + 1 - -2147483648)
      with ((Z.of_nat n - -2147483648) mod 4294967296 + 1) by lia.
    replace (Z.succ (Z.of_nat n) - -2147483648)
      with ((Z.of_nat n - -2147483648) + 1) by lia.
    rewrite Zplus_mod_idemp_l. reflexivity.
Qed.

(** ** What the console shows *)

Ltac peel H n :=
  simpl in H;
  destruct n as [|? n];
  [discriminate H
  |simpl in H; first [discriminate H | injection H as _ H; peel H n]].
Lemma attack_line_not_outcome (n who : string) :
  who = "enemy" \/ who = "player" ->
  is_outcome (Cout (n ++ " attacks the " ++ who ++ "!" ++ nl)) = false.
Proof.
  intros Hw. unfold is_outcome. apply orb_false_intro; apply String.eqb_neq; intros H;
    unfold defeat_text, victory_text, nl in H;
    destruct Hw; subst who; peel H n.
Qed.

Lemma displayStats_Player_not_outcome (p : Player) :
  is_outcome (Cout (displayStats p)) = false.
Proof. reflexivity. Qed.

Lemma displayStats_Enemy_not_outcome (e : Enemy) :
  is_outcome (Cout (displayStats e)) = false.
Proof. reflexivity. Qed.

Lemma collect_line_not_outcome (p : Player) :
  is_outcome (Cout (fst (collectTreasure p))) = false.
Proof. reflexivity. Qed.

Lemma no_outcome_app (l1 l2 : list Out) :
  no_outcome l1 -> no_outcome l2 -> no_outcome (l1 ++ l2).
Proof. intros H1 H2. apply Forall_app. split; assumption. Qed.

Lemma prompted_console (p : Player) (enemy : Enemy) (i : IOS.istream) (s : State) :
  console (prompted p enemy i s) = shown p enemy s.
Proof.
  unfold prompted, shown. cbn [console set_cin cout put].
  rewrite <- !app_assoc. reflexivity.
Qed.

Lemma shown_no_outcome (p : Player) (enemy : Enemy) :
  no_outcome [Cout (displayStats p); Cout (displayStats enemy); Cout action_text].
Proof. repeat constructor. Qed.

(** [saveGame] adds one line, the confirmation or the error. *)
Lemma saveGame_console (what : string -> string) (s s2 : State) :
  saveGame what s = Ret s2 ->
  player s2 = player s /\ cin s2 = cin s /\
  exists line,
    console s2 = (console s ++ [line])%list /\ is_outcome line = false /\
    (line = Cout ("Game state saved successfully." ++ nl) \/
     line = Cerr ("Error saving game: " ++ what "Failed to open file for saving." ++ nl)).
Proof.
  unfold saveGame, deref.
  destruct (ofstream_open s).
  - destruct (player s) as [p|] eqn:Hp; [|discriminate]. cbn [bind].
    intros [= <-]. split; [exact Hp|]. split; [reflexivity|].
    eexists. split; [reflexivity|]. split; [reflexivity|left; reflexivity].
  - intros [= <-]. split; [reflexivity|]. split; [reflexivity|].
    eexists. split; [reflexivity|]. split; [reflexivity|right; reflexivity].
Qed.

(** An iteration only adds to the console, and adds no outcome message. *)
Lemma play_body_console
  (what : string -> string) (enemy enemy' : Enemy) (s s' : State) (f : flow) :
  play_body what enemy s = Ret (f, enemy', s') ->
  exists delta, console s' = (console s ++ delta)%list /\ no_outcome delta.
Proof.
  intros H. apply play_body_cases in H.
  destruct H as (p & a & i & Hp & Ha & H).
  pose proof (prompted_console p enemy i s) as Hc. unfold shown in Hc.
  pose proof (shown_no_outcome p enemy) as Hn.
  destruct H as [(_ & _ & _ & [(_ & Hs) | (_ & Hs)])
                | [(_ & _ & _ & Hs)
                  | [(_ & _ & _ & s2 & Hsave & Hs) | (_ & _ & _ & _ & _ & Hs)]]];
    subst s'.
  - eexists. cbn [console set_player cout put]. rewrite Hc, <- !app_assoc.
    split; [reflexivity|]. apply no_outcome_app; [exact Hn|].
    constructor; [apply (attack_line_not_outcome _ "enemy"); tauto|].
    constructor; [apply (attack_line_not_outcome _ "player"); tauto|constructor].
  - eexists. cbn [console set_player cout put]. rewrite Hc, <- !app_assoc.
    split; [reflexivity|]. apply no_outcome_app; [exact Hn|].
    constructor; [apply (attack_line_not_outcome _ "enemy"); tauto|constructor].
  - eexists. cbn [console set_player cout put]. rewrite Hc, <- !app_assoc.
    split; [reflexivity|]. apply no_outcome_app; [exact Hn|].
    constructor; [apply collect_line_not_outcome|constructor].
  - apply saveGame_console in Hsave.
    destruct Hsave as (_ & _ & line & Hl & Hno & _).
    eexists. cbn [console set_player]. rewrite Hl, Hc, <- !app_assoc.
    split; [reflexivity|]. apply no_outcome_app; [exact Hn|].
    constructor; [exact Hno|constructor].
  - eexists. cbn [console cerr put]. rewrite Hc, <- !app_assoc.
    split; [reflexivity|]. apply no_outcome_app; [exact Hn|].
    constructor; [reflexivity|constructor].
Qed.

(** ** Save and exit *)

(** An iteration in which the action read is 3 saves and leaves the loop. *)
Lemma save_iteration
  (what : string -> string) (fuel : nat) (enemy : Enemy) (s : State)
  (p : Player) (i : IOS.istream) :
  player s = Some p ->
  0 < getHealth (base p) -> 0 < getHealth (base enemy) ->
  IOS.extract_int (cin s) 0 = (3, i) ->
  play_loop what (S fuel) enemy s =
  (s2 <- saveGame what (prompted p enemy i s) ;; Ret (Return, enemy, set_player None s2)).
Proof.
  intros Hp H1 H2 Ha. cbn [play_loop]. unfold deref at 1. rewrite Hp. cbn [bind].
  destruct (Z.gtb_spec (getHealth (base p)) 0); [|lia].
  destruct (Z.gtb_spec (getHealth (base enemy)) 0); [|lia].
  cbn [andb]. rewrite (play_body_eq what enemy s p 3 i Hp Ha). cbn [Z.eqb Pos.eqb].
  destruct (saveGame what (prompted p enemy i s)); reflexivity.
Qed.

(** Conversely, a run of the loop that ends by its [return] ended in an
    iteration whose action read is 3. *)
Lemma play_loop_return (what : string -> string) (fuel : nat) :
  forall (enemy enemy' : Enemy) (s s' : State),
  play_loop what fuel enemy s = Ret (Return, enemy', s') ->
  player s' = None /\
  (exists sk ek p i s2,
     player sk = Some p /\ IOS.extract_int (cin sk) 0 = (3, i) /\
     saveGame what (prompted p ek i sk) = Ret s2 /\ s' = set_player None s2) /\
  (exists delta, console s' = (console s ++ delta)%list /\ no_outcome delta).
Proof.
  induction fuel as [|fuel IH]; intros enemy enemy' s s' H.
  - cbn [play_loop] in H. destruct (deref s) as [p| |]; cbn [bind] in H;
      try discriminate.
    destruct ((getHealth (base p) >? 0) && (getHealth (base enemy) >? 0));
      discriminate.
  - cbn [play_loop] in H. destruct (deref s) as [p| |]; cbn [bind] in H;
      try discriminate.
    destruct ((getHealth (base p) >? 0) && (getHealth (base enemy) >? 0));
      [|discriminate].
    destruct (play_body what enemy s) as [[[f e1] s1]| |] eqn:Hb; cbn [bind] in H;
      try discriminate.
    pose proof (play_body_console what enemy e1 s s1 f Hb) as (d1 & Hc1 & Hn1).
    destruct f.
    + apply IH in H. destruct H as (Hnone & Hsave & d2 & Hc2 & Hn2).
      split; [exact Hnone|]. split; [exact Hsave|].
      exists (d1 ++ d2)%list. rewrite Hc2, Hc1, <- app_assoc.
      split; [reflexivity|]. apply no_outcome_app; assumption.
    + inversion H; subst e1 s1. clear H.
      pose proof (play_body_cases what enemy enemy' s s' Return Hb)
        as (q & a & i & Hq & Ha & Hcases).
      destruct Hcases as [(_ & Hf & _) | [(_ & Hf & _)
                         | [(E3 & _ & _ & s2 & Hsave & Hs) | (_ & _ & _ & Hf & _)]]];
        try discriminate.
      subst a. split; [subst s'; reflexivity|].
      split; [|exists d1; split; assumption].
      exists s, enemy, q, i, s2. repeat split; assumption.
Qed.

(** [saveGame] returns whenever there is a player. *)
Lemma saveGame_returns (what : string -> string) (s : State) (p : Player) :
  player s = Some p -> exists s2, saveGame what s = Ret s2.
Proof.
  intros Hp. unfold saveGame, deref. rewrite Hp.
  destruct (ofstream_open s); eexists; reflexivity.
Qed.

Lemma iterates_play_loop
  (what : string -> string) (enemy ek : Enemy) (s sk : State) (n : nat) :
  iterates what enemy s ek sk n ->
  forall fuel, play_loop what (n + fuel) enemy s = play_loop what fuel ek sk.
Proof.
  intros H. induction H as [enemy s|enemy e1 e2 s s1 s2 p n Hp H1 H2 Hb _ IH];
    intros fuel.
  - reflexivity.
  - change (S n + fuel)%nat with (S (n + fuel)).
    rewrite (play_loop_step what (n + fuel) enemy e1 s s1 p Hp H1 H2 Hb). apply IH.
Qed.

Lemma iterates_console
  (what : string -> string) (enemy ek : Enemy) (s sk : State) (n : nat) :
  iterates what enemy s ek sk n ->
  exists delta, console sk = (console s ++ delta)%list /\ no_outcome delta.
Proof.
  intros H. induction H as [enemy s|enemy e1 e2 s s1 s2 p n _ _ _ Hb _ IH].
  - exists []. rewrite app_nil_r. split; [reflexivity|constructor].
  - destruct IH as (d2 & Hc2 & Hn2).
    destruct (play_body_console what enemy e1 s s1 Continue Hb) as (d1 & Hc1 & Hn1).
    exists (d1 ++ d2)%list. rewrite Hc2, Hc1, <- app_assoc.
    split; [reflexivity|]. apply no_outcome_app; assumption.
Qed.

(** C7. In every combat run, an iteration in which the action read is 3
    calls [saveGame] on the state that holds the current player and
    returns from [play] right after it with the player released; the run
    has then written neither the victory nor the defeat message. *)
Theorem save_and_exit_no_outcome
  (what : string -> string) (s sk : State) (ek : Enemy) (n : nat)
  (p : Player) (i : IOS.istream) :
  iterates what (new_Enemy "Goblin") s ek sk n ->
  player sk = Some p ->
  0 < getHealth (base p) -> 0 < getHealth (base ek) ->
  IOS.extract_int (cin sk) 0 = (3, i) ->
  exists s2 delta,
    saveGame what (prompted p ek i sk) = Ret s2 /\
    player (prompted p ek i sk) = Some p /\
    play_body what ek sk = Ret (Return, ek, set_player None s2) /\
    (forall fuel, play what (n + S fuel) s = Ret (set_player None s2)) /\
    player (set_player None s2) = None /\
    console (set_player None s2) = (console s ++ delta)%list /\
    no_outcome delta.
Proof.
  intros Hit Hp H1 H2 Ha.
  destruct (saveGame_returns what (prompted p ek i sk) p Hp) as [s2 Hsave].
  assert (Hb : play_body what ek sk = Ret (Return, ek, set_player None s2)).
  { rewrite (play_body_eq what ek sk p 3 i Hp Ha). cbn [Z.eqb Pos.eqb].
    rewrite Hsave. reflexivity. }
  destruct (iterates_console what _ ek s sk n Hit) as (d1 & Hc1 & Hn1).
  destruct (play_body_console what ek ek sk _ Return Hb) as (d2 & Hc2 & Hn2).
  exists s2, (d1 ++ d2)%list.
  split; [exact Hsave|]. split; [exact Hp|]. split; [exact Hb|].
  split.
  { intros fuel. unfold play.
    rewrite (iterates_play_loop what _ ek s sk n Hit (S fuel)).
    rewrite (save_iteration what fuel ek sk p i Hp H1 H2 Ha), Hsave. reflexivity. }
  split; [reflexivity|].
  split; [rewrite Hc2, Hc1, <- app_assoc; reflexivity|].
  apply no_outcome_app; assumption.
Qed.

Lemma save_and_exit_no_outcome_witness :
  let s := concrete_state "2 3" None (Some (new_Player "Hero")) in
  exists s', play (fun m => m) 2 s = Ret s' /\ player s' = None.
Proof.
  intros s.
  edestruct (save_and_exit_no_outcome (fun m => m) s) as (s2 & delta & H).
  - eapply iterates_more;
      [reflexivity|simpl; lia|simpl; lia|vm_compute; reflexivity|apply iterates_none].
  - reflexivity.
  - simpl. lia.
  - simpl. lia.
  - vm_compute. reflexivity.
  - destruct H as (_ & _ & _ & Hplay & Hnone & _).
    eexists. split; [exact (Hplay 0%nat)|exact Hnone].
Defined.

(** ** Loading from a file that cannot be opened *)

Lemma ifstream_open_fails (s : State) :
  file_content s = None \/ file_readable s = false -> ifstream_open s = None.
Proof.
  unfold ifstream_open. intros [H|H]; rewrite H; [reflexivity|].
  destruct (file_content s); reflexivity.
Qed.

(** C8. When [game_state.txt] is missing or cannot be opened, [loadGame]
    writes one error line and returns: the [player] pointer, the input and
    the file are as before, [play] is not entered (no fuel is needed), and
    the menu loop goes on to its next iteration. *)
Theorem loadGame_open_failure
  (what : string -> string) (indeterminate : Z) (fuel : nat) (choice : Z)
  (s : State) (i : IOS.istream) :
  file_content s = None \/ file_readable s = false ->
  choice <> 3 ->
  IOS.extract_int (cin s) choice = (2, i) ->
  let s1 := set_cin i (cout "Choose an option: " (cout menu_text s)) in
  let report :=
    Cerr ("Error loading game: " ++ what "Failed to open file for loading." ++ nl) in
  loadGame what indeterminate 0 s1 = Ret (put report s1) /\
  loadGame what indeterminate fuel s1 = Ret (put report s1) /\
  player (put report s1) = player s /\
  cin (put report s1) = i /\
  file_content (put report s1) = file_content s /\
  console (put report s1) =
    (console s ++ [Cout menu_text; Cout "Choose an option: "; report])%list /\
  displayMenu_loop what indeterminate (S fuel) choice s =
    displayMenu_loop what indeterminate fuel 2 (put report s1).
Proof.
  intros Hf Hc Ha s1 report.
  assert (Hopen : ifstream_open s1 = None) by (apply ifstream_open_fails; exact Hf).
  assert (Hload : forall n, loadGame what indeterminate n s1 = Ret (put report s1)).
  { intros n. unfold loadGame. rewrite Hopen. reflexivity. }
  split; [apply Hload|]. split; [apply Hload|].
  split; [reflexivity|]. split; [reflexivity|]. split; [reflexivity|].
  split.
  { subst s1. cbn [console put set_cin cout]. rewrite <- !app_assoc. reflexivity. }
  cbn [displayMenu_loop].
  destruct (Z.eqb_spec choice 3) as [E|_]; [contradiction|].
  unfold displayMenu_body. cbn [cin cout put]. rewrite Ha. cbn [Z.eqb Pos.eqb].
  fold (put (Cout menu_text) s). fold (cout menu_text s).
  fold (put (Cout "Choose an option: ") (cout menu_text s)).
  fold (cout "Choose an option: " (cout menu_text s)). fold s1.
  rewrite Hload. reflexivity.
Qed.

Lemma loadGame_open_failure_witness :
  let s := concrete_state "2 3" None None in
  exists s',
    loadGame (fun m => m ++ ": iostream error") 0 0
      (set_cin (snd (IOS.extract_int (cin s) 0))
         (cout "Choose an option: " (cout menu_text s))) = Ret s' /\
    player s' = None.
Proof.
  intros s.
  destruct (loadGame_open_failure (fun m => m ++ ": iostream error") 0 0 0 s
              (snd (IOS.extract_int (cin s) 0)))
    as (H & _ & Hp & _).
  - left. reflexivity.
  - lia.
  - vm_compute. reflexivity.
  - eexists. split; [exact H|exact Hp].
Defined.

(** ** Loading from a file without a health field *)

Lemma play_defeated_on_entry
  (what : string -> string) (fuel : nat) (s : State) (p : Player) :
  player s = Some p -> getHealth (base p) = 0 ->
  play what fuel s = Ret (set_player None (cout defeat_text s)).
Proof.
  intros Hp Hh. unfold play.
  assert (Hl : play_loop what fuel (new_Enemy "Goblin") s
               = Ret (Continue, new_Enemy "Goblin", s)).
  { destruct fuel; cbn [play_loop]; unfold deref; rewrite Hp; cbn [bind];
      rewrite Hh; reflexivity. }
  rewrite Hl. cbn [bind]. unfold play_end, deref. rewrite Hp. cbn [bind].
  rewrite Hh. reflexivity.
Qed.

(** C10 (amended). If the file opens and, past the name, the extraction
    of the health meets a character that starts no decimal number, the
    value stored is 0: [loadGame] reports no error, builds the player,
    takes the whole default health away, and [play] ends at once, before
    any input is read, with the defeat message.  (A text that ends before
    the health field stores nothing in [playerHealth]; that case is left
    aside here.) *)
Theorem loadGame_health_without_digits
  (what : string -> string) (indeterminate : Z) (fuel : nat) (s : State)
  (text : string) (f2 : IOS.istream) :
  file_content s = Some text -> file_readable s = true ->
  IOS.sentry (snd (IOS.extract_string (IOS.open text) "")) = (true, f2) ->
  fst (IOS.take_digits None (snd (IOS.take_sign (IOS.rdbuf f2)))) = None ->
  let n := fst (IOS.extract_string (IOS.open text) "") in
  let loaded := {| player_base := {| name := n; health := 0 |};
                   treasuresCollected := 0 |} in
  fst (IOS.extract_int (snd (IOS.extract_string (IOS.open text) "")) indeterminate) = 0 /\
  player (loadGame_restore indeterminate (IOS.open text) s) = Some loaded /\
  loadGame what indeterminate fuel s =
    Ret (set_player None
           (cout defeat_text (loadGame_restore indeterminate (IOS.open text) s))) /\
  forall s', loadGame what indeterminate fuel s = Ret s' ->
    player s' = None /\ cin s' = cin s /\
    console s' =
      (console s ++ [Cout ("Game state loaded successfully." ++ nl);
                     Cout defeat_text])%list.
Proof.
  intros Hc Hr Hs Hd n loaded.
  pose proof (extract_int_no_digits _ f2 indeterminate Hs Hd) as [Hv _].
  assert (Hp : player (loadGame_restore indeterminate (IOS.open text) s) = Some loaded).
  { unfold loadGame_restore. subst n loaded.
    destruct (IOS.extract_string (IOS.open text) "") as [n f1]. cbn [fst snd] in *.
    destruct (IOS.extract_int f1 indeterminate) as [v f3]. cbn [fst] in Hv. subst v.
    reflexivity. }
  assert (Hl : loadGame what indeterminate fuel s =
    Ret (set_player None
           (cout defeat_text (loadGame_restore indeterminate (IOS.open text) s)))).
  { unfold loadGame, ifstream_open. rewrite Hc, Hr.
    apply (play_defeated_on_entry what fuel _ loaded Hp). reflexivity. }
  split; [exact Hv|]. split; [exact Hp|]. split; [exact Hl|].
  intros s' Hs'. rewrite Hl in Hs'. injection Hs' as <-.
  split; [reflexivity|].
  unfold loadGame_restore.
  destruct (IOS.extract_string (IOS.open text) "") as [n' f1].
  destruct (IOS.extract_int f1 indeterminate) as [v f3].
  split; [reflexivity|].
  cbn [console set_player cout put]. rewrite <- !app_assoc. reflexivity.
Qed.

Lemma loadGame_health_without_digits_witness :
  let s := concrete_state "" (Some "Hero abc") None in
  loadGame (fun m => m) 80 0 s =
    Ret (set_player None
           (cout defeat_text (loadGame_restore 80 (IOS.open "Hero abc") s))).
Proof.
  intros s.
  destruct (loadGame_health_without_digits (fun m => m) 80 0 s "Hero abc"
              (snd (IOS.sentry (snd (IOS.extract_string (IOS.open "Hero abc") "")))))
    as (_ & _ & H & _).
  - reflexivity.
  - reflexivity.
  - vm_compute. reflexivity.
  - vm_compute. reflexivity.
  - exact H.
Defined.

(** When the text ends before the health field, the sentry stops the
    extraction and the player is built from the value that [playerHealth]
    happened to hold. *)
Lemma loadGame_restore_unread_health
  (indeterminate : Z) (file f1 : IOS.istream) (s : State) :
  Int.in_range indeterminate ->
  IOS.sentry (snd (IOS.extract_string file "")) = (false, f1) ->
  player (loadGame_restore indeterminate file s) =
  Some {| player_base := {| name := fst (IOS.extract_string file "");
                            health := Z.max 0 indeterminate |};
          treasuresCollected := 0 |}.
Proof.
  intros Hi Hs. rewrite loadGame_restore_player by assumption.
  rewrite (extract_int_sentry_fails _ f1 indeterminate Hs). reflexivity.
Qed.

(** C10, as the claim has it, fails on a file that holds a name and
    nothing else: the extraction of the health fails, [playerHealth] keeps
    the value it had, here 80, and the player enters the loop with that
    health; the run below leaves by the third action without any outcome
    message. *)
Lemma loadGame_name_only_file :
  let s := concrete_state "3" (Some "Hero") None in
  let file := snd (IOS.extract_string (IOS.open "Hero") "") in
  IOS.failbit (snd (IOS.extract_int file 80)) = true /\
  player (loadGame_restore 80 (IOS.open "Hero") s)
    = Some {| player_base := {| name := "Hero"; health := 80 |};
              treasuresCollected := 0 |} /\
  exists s',
    loadGame (fun m => m) 80 1 s = Ret s' /\
    existsb is_outcome (console s') = false /\
    ~ In (Cout defeat_text) (console s').
Proof.
  intros s file. split; [reflexivity|]. split; [reflexivity|].
  eexists. split; [vm_compute; reflexivity|]. split; [reflexivity|].
  intros H. simpl in H.
  repeat (destruct H as [H|H]; [discriminate H|]). exact H.
Qed.

(** ** The victory scenario *)

(** C5. From a player of health 100 and the enemy of health 50 that [play]
    builds, three attack actions run three iterations: the enemy goes
    50, 30, 10, 0 and the player 100, 85, 70, 70, the third attack being
    left unanswered; the loop then stops and [play] ends with the victory
    message.  Two iterations do not end the loop. *)
Theorem three_attacks_win
  (what : string -> string) (n rest : string) (t : Z) (shown0 : list Out)
  (file : option string) (readable writable : bool) :
  let pl h := {| player_base := {| name := n; health := h |};
                 treasuresCollected := t |} in
  let en h := {| enemy_base := {| name := "Goblin"; health := h |} |} in
  let s0 :=
    {| cin := IOS.open ("1" ++ nl ++ "1" ++ nl ++ "1" ++ nl ++ rest);
       console := shown0;
       file_content := file; file_readable := readable; file_writable := writable;
       player := Some (pl 100) |} in
  exists s1 s2 s3,
    play_body what (new_Enemy "Goblin") s0 = Ret (Continue, en 30, s1) /\
    player s1 = Some (pl 85) /\
    play_body what (en 30) s1 = Ret (Continue, en 10, s2) /\
    player s2 = Some (pl 70) /\
    play_body what (en 10) s2 = Ret (Continue, en 0, s3) /\
    player s3 = Some (pl 70) /\
    play_loop what 2 (new_Enemy "Goblin") s0 = OutOfFuel /\
    (forall k, play_loop what (3 + k) (new_Enemy "Goblin") s0
               = Ret (Continue, en 0, s3)) /\
    (forall k, play what (3 + k) s0 = Ret (set_player None (cout victory_text s3))) /\
    console s3 =
      (shown0 ++
       [Cout (displayStats (pl 100)); Cout (displayStats (en 50)); Cout action_text;
        Cout (n ++ " attacks the enemy!" ++ nl);
        Cout ("Goblin attacks the player!" ++ nl);
        Cout (displayStats (pl 85)); Cout (displayStats (en 30)); Cout action_text;
        Cout (n ++ " attacks the enemy!" ++ nl);
        Cout ("Goblin attacks the player!" ++ nl);
        Cout (displayStats (pl 70)); Cout (displayStats (en 10)); Cout action_text;
        Cout (n ++ " attacks the enemy!" ++ nl)])%list.
Proof.
  intros pl en s0.
  set (i1 := IOS.mkIstream (nl ++ "1" ++ nl ++ "1" ++ nl ++ rest) false false).
  set (i2 := IOS.mkIstream (nl ++ "1" ++ nl ++ rest) false false).
  set (i3 := IOS.mkIstream (nl ++ rest) false false).
  set (s1 := attack_answered (pl 100) (en 50) i1 s0).
  set (s2 := attack_answered (pl 85) (en 30) i2 s1).
  set (s3 := attack_unanswered (pl 70) (en 10) i3 s2).
  assert (B1 : play_body what (en 50) s0 = Ret (Continue, en 30, s1))
    by (rewrite (play_body_eq what (en 50) s0 (pl 100) 1 i1); reflexivity).
  assert (B2 : play_body what (en 30) s1 = Ret (Continue, en 10, s2))
    by (rewrite (play_body_eq what (en 30) s1 (pl 85) 1 i2); reflexivity).
  assert (B3 : play_body what (en 10) s2 = Ret (Continue, en 0, s3))
    by (rewrite (play_body_eq what (en 10) s2 (pl 70) 1 i3); reflexivity).
  assert (L : forall k, play_loop what (3 + k) (en 50) s0 = Ret (Continue, en 0, s3)).
  { intros k. change (3 + k)%nat with (S (S (S k))).
    rewrite (play_loop_step what _ (en 50) (en 30) s0 s1 (pl 100));
      [|reflexivity|reflexivity|reflexivity|exact B1].
    rewrite (play_loop_step what _ (en 30) (en 10) s1 s2 (pl 85));
      [|reflexivity|reflexivity|reflexivity|exact B2].
    rewrite (play_loop_step what _ (en 10) (en 0) s2 s3 (pl 70));
      [|reflexivity|reflexivity|reflexivity|exact B3].
    destruct k; reflexivity. }
  exists s1, s2, s3.
  split; [exact B1|]. split; [reflexivity|].
  split; [exact B2|]. split; [reflexivity|].
  split; [exact B3|]. split; [reflexivity|].
  split.
  { rewrite (play_loop_step what _ (en 50) (en 30) s0 s1 (pl 100));
      [|reflexivity|reflexivity|reflexivity|exact B1].
    rewrite (play_loop_step what _ (en 30) (en 10) s1 s2 (pl 85));
      [|reflexivity|reflexivity|reflexivity|exact B2].
    reflexivity. }
  split; [exact L|].
  split.
  { intros k. unfold play. change (new_Enemy "Goblin") with (en 50).
    rewrite L. reflexivity. }
  subst s3 s2 s1. unfold attack_unanswered, attack_answered.
  repeat (cbn [console cout put set_cin set_player];
          rewrite prompted_console; unfold shown).
  cbn [console]. rewrite <- !app_assoc. reflexivity.
Qed.

(** ** Health is never negative *)

Lemma operation_health_nonneg (c c' : Combatant) :
  operation c c' ->
  0 <= getHealth (combatant_base c) -> 0 <= getHealth (combatant_base c').
Proof.
  intros Hop Hc. destruct Hop as [d c|attacker c|c|p|saved p].
  - destruct c; apply takeDamage_nonneg.
  - destruct c, attacker; apply takeDamage_nonneg.
  - exact Hc.
  - exact Hc.
  - apply takeDamage_nonneg.
Qed.

(** C4. Whatever sequence of public operations a combatant goes through
    from its construction, its health is never negative. *)
Theorem health_never_negative (c : Combatant) :
  reachable c -> 0 <= getHealth (combatant_base c).
Proof.
  intros H. induction H as [n|n|c c' _ IH Hop].
  - simpl. unfold getHealth. simpl. lia.
  - simpl. unfold getHealth. simpl. lia.
  - exact (operation_health_nonneg c c' Hop IH).
Qed.

Lemma health_never_negative_witness :
  0 <= getHealth
         (combatant_base
            (combatant_update (takeDamage 70)
               (combatant_update (combatant_attack (APlayer (new_Player "Hero")))
                  (AnEnemy (new_Enemy "Goblin"))))).
Proof.
  apply health_never_negative.
  eapply reach_operation; [|apply op_takeDamage].
  eapply reach_operation; [|apply op_attacked].
  apply reach_new_Enemy.
Defined.

(** The same in the running program: the loop of [play] keeps the health
    of both combatants at 0 or above, and [loadGame] enters it so. *)
Lemma play_body_healthy
  (what : string -> string) (enemy enemy' : Enemy) (s s' : State) (f : flow) :
  healthy s -> 0 <= getHealth (base enemy) ->
  play_body what enemy s = Ret (f, enemy', s') ->
  healthy s' /\ 0 <= getHealth (base enemy').
Proof.
  intros Hs He H. apply play_body_cases in H.
  destruct H as (p & a & i & Hp & Ha & H).
  pose proof (Hs p Hp) as Hh.
  destruct H as [(_ & _ & He' & [(_ & Hs') | (_ & Hs')])
                | [(_ & _ & He' & Hs')
                  | [(_ & _ & He' & s2 & Hsave & Hs') | (_ & _ & _ & _ & He' & Hs')]]];
    subst s' enemy'.
  - split; [|apply takeDamage_nonneg].
    intros q Hq. cbn [player set_player] in Hq. injection Hq as <-.
    apply takeDamage_nonneg.
  - split; [|apply takeDamage_nonneg].
    intros q Hq. cbn [player cout put prompted set_cin] in Hq. exact (Hs q Hq).
  - split; [|exact He].
    intros q Hq. cbn [player set_player] in Hq. injection Hq as <-. exact Hh.
  - split; [|exact He]. intros q Hq. discriminate Hq.
  - split; [|exact He].
    intros q Hq. cbn [player cerr put prompted set_cin cout] in Hq. exact (Hs q Hq).
Qed.

Lemma play_loop_healthy (what : string -> string) (fuel : nat) :
  forall (enemy enemy' : Enemy) (s s' : State) (f : flow),
  healthy s -> 0 <= getHealth (base enemy) ->
  play_loop what fuel enemy s = Ret (f, enemy', s') ->
  healthy s' /\ 0 <= getHealth (base enemy').
Proof.
  induction fuel as [|fuel IH]; intros enemy enemy' s s' f Hs He H;
    cbn [play_loop] in H; destruct (deref s) as [p| |]; cbn [bind] in H;
    try discriminate;
    destruct ((getHealth (base p) >? 0) && (getHealth (base enemy) >? 0));
    try discriminate; try (injection H as _ <- <-; split; assumption).
  destruct (play_body what enemy s) as [[[f1 e1] s1]| |] eqn:Hb; cbn [bind] in H;
    try discriminate.
  destruct (play_body_healthy what enemy e1 s s1 f1 Hs He Hb) as [Hs1 He1].
  destruct f1.
  - exact (IH e1 enemy' s1 s' f Hs1 He1 H).
  - injection H as _ <- <-. split; assumption.
Qed.

Lemma loadGame_restore_healthy (indeterminate : Z) (file : IOS.istream) (s : State) :
  healthy (loadGame_restore indeterminate file s).
Proof.
  unfold loadGame_restore.
  destruct (IOS.extract_string file "") as [n f1].
  destruct (IOS.extract_int f1 indeterminate) as [v f2].
  intros p Hp. cbn [player cout put set_player] in Hp. injection Hp as <-.
  apply takeDamage_nonneg.
Qed.

(** * Further properties *)

(** ** The shape of every run of the combat loop *)

(** An iteration always returns when there is a player. *)
Lemma play_body_returns
  (what : string -> string) (enemy : Enemy) (s : State) (p : Player) :
  player s = Some p ->
  exists f enemy' s', play_body what enemy s = Ret (f, enemy', s').
Proof.
  intros Hp. destruct (IOS.extract_int (cin s) 0) as [a i] eqn:Ha.
  rewrite (play_body_eq what enemy s p a i Hp Ha).
  destruct (a =? 1).
  { destruct (getHealth (base (set_base (takeDamage 20 (base enemy)) enemy)) >? 0);
      do 3 eexists; reflexivity. }
  destruct (a =? 2); [do 3 eexists; reflexivity|].
  destruct (a =? 3); [|do 3 eexists; reflexivity].
  destruct (saveGame_returns what (prompted p enemy i s) p Hp) as [s2 Hs].
  rewrite Hs. do 3 eexists. reflexivity.
Qed.

(** An iteration that does not return from [play] leaves a player, the
    file and its permissions in place. *)
Lemma play_body_continue
  (what : string -> string) (enemy enemy' : Enemy) (s s' : State) :
  play_body what enemy s = Ret (Continue, enemy', s') ->
  (exists p', player s' = Some p') /\
  file_content s' = file_content s /\
  file_readable s' = file_readable s /\
  file_writable s' = file_writable s.
Proof.
  intros H. apply play_body_cases in H.
  destruct H as (p & a & i & Hp & Ha & H).
  destruct H as [(_ & _ & _ & [(_ & Hs) | (_ & Hs)])
                | [(_ & _ & _ & Hs)
                  | [(_ & Hf & _) | (_ & _ & _ & _ & _ & Hs)]]];
    try discriminate; subst s'; (split; [|repeat split]).
  - eexists. reflexivity.
  - exists p. exact Hp.
  - eexists. reflexivity.
  - exists p. exact Hp.
Qed.

(** Every returning run of the loop is a number of iterations that keep an
    invariant, followed either by a failed loop test or by an iteration
    that leaves through the [return]. *)
Lemma play_loop_invariant
  (what : string -> string) (P : Enemy -> State -> Prop) :
  (forall enemy s e1 s1 p,
     P enemy s -> player s = Some p ->
     0 < getHealth (base p) -> 0 < getHealth (base enemy) ->
     play_body what enemy s = Ret (Continue, e1, s1) -> P e1 s1) ->
  forall (fuel : nat) (enemy enemy' : Enemy) (s s' : State) (f : flow),
  P enemy s ->
  play_loop what fuel enemy s = Ret (f, enemy', s') ->
  (f = Continue /\ P enemy' s' /\
   exists p, player s' = Some p /\
             (getHealth (base p) <= 0 \/ getHealth (base enemy') <= 0)) \/
  (f = Return /\
   exists ek sk p,
     P ek sk /\ player sk = Some p /\
     0 < getHealth (base p) /\ 0 < getHealth (base ek) /\
     play_body what ek sk = Ret (Return, enemy', s')).
Proof.
  intros Hstep. induction fuel as [|fuel IH]; intros enemy enemy' s s' f HP H;
    cbn [play_loop] in H; unfold deref in H;
    destruct (player s) as [p|] eqn:Hp; cbn [bind] in H; try discriminate;
    destruct (Z.gtb_spec (getHealth (base p)) 0) as [H1|H1];
    destruct (Z.gtb_spec (getHealth (base enemy)) 0) as [H2|H2];
    cbn [andb] in H; try discriminate;
    try (injection H as <- <- <-; left; split; [reflexivity|];
         split; [exact HP|]; exists p; split; [exact Hp|lia]).
  destruct (play_body what enemy s) as [[[f1 e1] s1]| |] eqn:Hb; cbn [bind] in H;
    try discriminate.
  destruct f1.
  - apply (IH e1 enemy' s1 s' f); [|exact H].
    exact (Hstep enemy s e1 s1 p HP Hp H1 H2 Hb).
  - injection H as <- <- <-. right. split; [reflexivity|].
    exists enemy, s, p. repeat split; assumption.
Qed.

(** With a player in place the loop never dereferences a null pointer. *)
Lemma play_loop_no_null (what : string -> string) (fuel : nat) :
  forall (enemy : Enemy) (s : State) (p : Player),
  player s = Some p -> play_loop what fuel enemy s <> NullDeref.
Proof.
  induction fuel as [|fuel IH]; intros enemy s p Hp;
    cbn [play_loop]; unfold deref; rewrite Hp; cbn [bind];
    destruct ((getHealth (base p) >? 0) && (getHealth (base enemy) >? 0));
    try discriminate.
  destruct (play_body_returns what enemy s p Hp) as (f & e1 & s1 & Hb).
  rewrite Hb. cbn [bind]. destruct f; [|discriminate].
  destruct (play_body_continue what enemy e1 s s1 Hb) as [[p1 Hp1] _].
  exact (IH e1 s1 p1 Hp1).
Qed.

(** Whatever way [play] returns, the player is released. *)
Lemma play_player_none (what : string -> string) (fuel : nat) (s s' : State) :
  play what fuel s = Ret s' -> player s' = None.
Proof.
  unfold play. intros H.
  destruct (play_loop what fuel (new_Enemy "Goblin") s) as [[[f e1] s1]| |] eqn:Hl;
    cbn [bind] in H; try discriminate.
  destruct f.
  - unfold play_end in H. destruct (deref s1) as [p| |]; cbn [bind] in H;
      try discriminate.
    injection H as <-. reflexivity.
  - injection H as <-. exact (proj1 (play_loop_return what fuel _ _ _ _ Hl)).
Qed.

Lemma play_no_null (what : string -> string) (fuel : nat) (s : State) (p : Player) :
  player s = Some p -> play what fuel s <> NullDeref.
Proof.
  intros Hp. unfold play.
  pose proof (play_loop_no_null what fuel (new_Enemy "Goblin") s p Hp) as Hn.
  destruct (play_loop what fuel (new_Enemy "Goblin") s) as [[[f e1] s1]| |] eqn:Hl;
    cbn [bind]; try discriminate; [|contradiction].
  destruct f; [|discriminate].
  destruct (play_loop_invariant what (fun _ _ => True) (fun _ _ _ _ _ _ _ _ _ _ => I)
              fuel _ _ _ _ _ I Hl) as [(_ & _ & q & Hq & _) | (Hf & _)];
    [|discriminate].
  unfold play_end, deref. rewrite Hq. discriminate.
Qed.

(** X1. With a player in place, [play] never dereferences the null
    pointer, and however it returns (defeat, victory or save and exit) the
    [player] pointer is null afterwards. *)
Theorem play_releases_player
  (what : string -> string) (fuel : nat) (s : State) (p : Player) :
  player s = Some p ->
  play what fuel s <> NullDeref /\
  forall s', play what fuel s = Ret s' -> player s' = None.
Proof.
  intros Hp. split; [exact (play_no_null what fuel s p Hp)|].
  intros s'. apply play_player_none.
Qed.

Lemma play_releases_player_witness :
  let s := concrete_state "1 1 1" None (Some (new_Player "Hero")) in
  play (fun m => m) 3 s <> NullDeref /\
  forall s', play (fun m => m) 3 s = Ret s' -> player s' = None.
Proof.
  intros s. apply (play_releases_player (fun m => m) 3 s (new_Player "Hero")).
  reflexivity.
Defined.

(** X2. A run of the loop that ends at the loop test is followed by
    exactly one outcome line: the defeat message when the player's health
    is 0 or less, whatever the enemy's, and the victory message otherwise;
    then the player is released. *)
Theorem play_outcome_on_loop_exit
  (what : string -> string) (fuel : nat) (s sk : State) (enemy' : Enemy) :
  play_loop what fuel (new_Enemy "Goblin") s = Ret (Continue, enemy', sk) ->
  exists p,
    player sk = Some p /\
    ((getHealth (base p) <= 0 /\
      play what fuel s = Ret (set_player None (cout defeat_text sk))) \/
     (0 < getHealth (base p) /\ getHealth (base enemy') <= 0 /\
      play what fuel s = Ret (set_player None (cout victory_text sk)))).
Proof.
  intros Hl.
  destruct (play_loop_invariant what (fun _ _ => True) (fun _ _ _ _ _ _ _ _ _ _ => I)
              fuel _ _ _ _ _ I Hl) as [(_ & _ & p & Hp & Hex) | (Hf & _)];
    [|discriminate].
  exists p. split; [exact Hp|].
  unfold play. rewrite Hl. cbn [bind]. unfold play_end, deref. rewrite Hp. cbn [bind].
  destruct (Z.leb_spec (getHealth (base p)) 0) as [Hle|Hgt].
  - left. split; [exact Hle|reflexivity].
  - right. split; [exact Hgt|].
    assert (He : getHealth (base enemy') <= 0) by lia.
    split; [exact He|].
    destruct (Z.leb_spec (getHealth (base enemy')) 0); [reflexivity|lia].
Qed.

Lemma play_outcome_on_loop_exit_witness :
  let s := concrete_state "1 1 1" None (Some (new_Player "Hero")) in
  exists sk, play (fun m => m) 3 s = Ret (set_player None (cout victory_text sk)).
Proof.
  intros s.
  edestruct (play_outcome_on_loop_exit (fun m => m) 3 s) as (p & Hp & [H|H]).
  - vm_compute. reflexivity.
  - exfalso. destruct H as [Hle _].
    injection Hp as <-. vm_compute in Hle. apply Hle. reflexivity.
  - eexists. exact (proj2 (proj2 H)).
Defined.



(** ** A new game *)

Lemma play_loop_console
  (what : string -> string) (fuel : nat) (enemy enemy' : Enemy) (s s' : State)
  (f : flow) :
  play_loop what fuel enemy s = Ret (f, enemy', s') ->
  exists delta, console s' = (console s ++ delta)%list /\ no_outcome delta.
Proof.
  intros Hl.
  assert (Hstep : forall en s0 e1 s1 p,
            (exists d, console s0 = (console s ++ d)%list /\ no_outcome d) ->
            player s0 = Some p ->
            0 < getHealth (base p) -> 0 < getHealth (base en) ->
            play_body what en s0 = Ret (Continue, e1, s1) ->
            exists d, console s1 = (console s ++ d)%list /\ no_outcome d).
  { intros en s0 e1 s1 p (d & Hc & Hn) _ _ _ Hb.
    destruct (play_body_console what en e1 s0 s1 Continue Hb) as (d1 & Hc1 & Hn1).
    exists (d ++ d1)%list. rewrite Hc1, Hc, <- app_assoc.
    split; [reflexivity|apply no_outcome_app; assumption]. }
  assert (H0 : exists d, console s = (console s ++ d)%list /\ no_outcome d).
  { exists []. rewrite app_nil_r. split; [reflexivity|constructor]. }
  destruct (play_loop_invariant what _ Hstep fuel _ _ _ _ _ H0 Hl)
    as [(_ & Hd & _) | (_ & ek & sk & p & (d & Hc & Hn) & _ & _ & _ & Hb)].
  - exact Hd.
  - destruct (play_body_console what ek enemy' sk s' Return Hb) as (d1 & Hc1 & Hn1).
    exists (d ++ d1)%list. rewrite Hc1, Hc, <- app_assoc.
    split; [reflexivity|apply no_outcome_app; assumption].
Qed.

Lemma fresh_game_step
  (what : string -> string) (enemy : Enemy) (s : State) (e1 : Enemy) (s1 : State)
  (p : Player) :
  fresh_game enemy s -> player s = Some p ->
  0 < getHealth (base p) -> 0 < getHealth (base enemy) ->
  play_body what enemy s = Ret (Continue, e1, s1) -> fresh_game e1 s1.
Proof.
  intros (q & Hq & Hf) Hp H1 H2 Hb. rewrite Hp in Hq. injection Hq as <-.
  assert (Hd20 : getHealth (takeDamage 20 (base enemy))
                 = Z.max 0 (getHealth (base enemy) - 20)).
  { apply takeDamage_no_wrap.
    unfold fresh_pair, getHealth, Int.in_range, Int.min_int, Int.max_int in *. lia. }
  assert (Hd15 : getHealth (takeDamage 15 (base p))
                 = Z.max 0 (getHealth (base p) - 15)).
  { apply takeDamage_no_wrap.
    unfold fresh_pair, getHealth, Int.in_range, Int.min_int, Int.max_int in *. lia. }
  apply play_body_cases in Hb.
  destruct Hb as (q & a & i & Hq & Ha & Hcases).
  rewrite Hp in Hq. injection Hq as <-.
  destruct Hcases as [(_ & _ & He & [(Hgt & Hs) | (Hle & Hs)])
                     | [(_ & _ & He & Hs)
                       | [(_ & Hfl & _) | (_ & _ & _ & _ & He & Hs)]]];
    try discriminate; subst e1 s1.
  - eexists. split; [reflexivity|].
    cbn [base set_base Player_ops Enemy_ops player_base enemy_base] in *.
    rewrite Hd20, Hd15. rewrite Hd20 in Hgt. unfold fresh_pair in *. lia.
  - exists p. split; [exact Hp|].
    cbn [base set_base Player_ops Enemy_ops player_base enemy_base] in *.
    rewrite Hd20. rewrite Hd20 in Hle. unfold fresh_pair in *. lia.
  - eexists. split; [reflexivity|]. exact Hf.
  - exists p. split; [exact Hp|]. exact Hf.
Qed.

(** X4. A game begun by [startGame] is never lost: if [startGame]
    returns, the player is released and the run has written either no
    outcome line at all (save and exit) or the victory message as its last
    line; the defeat message is not written. *)
Theorem new_game_never_defeated
  (what : string -> string) (fuel : nat) (s s' : State) :
  startGame what fuel s = Ret s' ->
  player s' = None /\
  exists delta,
    no_outcome delta /\
    (console s' = (console s ++ delta)%list \/
     console s' = (console s ++ delta ++ [Cout victory_text])%list).
Proof.
  unfold startGame. cbn [cin cout put].
  destruct (IOS.extract_string (cin s) "") as [n i].
  set (s0 := cout ("Starting new game..." ++ nl)
               (set_player (Some (new_Player n))
                  (set_cin i (cout "Enter your name: " s)))).
  intros H. change (play what fuel s0 = Ret s') in H.
  split; [exact (play_player_none what fuel s0 s' H)|].
  unfold play in H.
  destruct (play_loop what fuel (new_Enemy "Goblin") s0) as [[[f e1] s1]| |] eqn:Hl;
    cbn [bind] in H; try discriminate.
  destruct (play_loop_console what fuel _ _ _ _ _ Hl) as (d & Hc & Hn).
  assert (Hpre : console s0 =
            (console s ++ [Cout "Enter your name: "; Cout ("Starting new game..." ++ nl)])%list).
  { subst s0. cbn [console cout put set_player set_cin]. rewrite <- app_assoc.
    reflexivity. }
  assert (Hnpre : no_outcome [Cout "Enter your name: "; Cout ("Starting new game..." ++ nl)])
    by (repeat constructor).
  exists ([Cout "Enter your name: "; Cout ("Starting new game..." ++ nl)] ++ d)%list.
  split; [apply no_outcome_app; assumption|].
  assert (H0 : fresh_game (new_Enemy "Goblin") s0).
  { exists (new_Player n). split; [reflexivity|]. left. split; reflexivity. }
  destruct (play_loop_invariant what fresh_game (fresh_game_step what)
              fuel _ _ _ _ _ H0 Hl)
    as [(Hf & (q & Hq & Hfresh) & p & Hp & Hex) | (Hf & _)]; subst f.
  - right. rewrite Hp in Hq. injection Hq as <-.
    unfold play_end, deref in H. rewrite Hp in H. cbn [bind] in H.
    assert (Hh : getHealth (base p) = 70 /\ getHealth (base e1) = 0)
      by (unfold fresh_pair in Hfresh; lia).
    destruct Hh as [Hh1 Hh2]. rewrite Hh1, Hh2 in H. cbn [Z.leb Z.compare] in H.
    injection H as <-. cbn [console set_player cout put].
    rewrite Hc, Hpre, <- !app_assoc. reflexivity.
  - left. injection H as <-. rewrite Hc, Hpre, <- !app_assoc. reflexivity.
Qed.

Lemma new_game_never_defeated_witness :
  let s := concrete_state "Hero 1 2 1 9 1" None None in
  exists s', startGame (fun m => m) 5 s = Ret s' /\ player s' = None.
Proof.
  intros s. eexists. split; [vm_compute; reflexivity|].
  apply (new_game_never_defeated (fun m => m) 5 s). vm_compute. reflexivity.
Defined.

(** X5. An action other than 1, 2 and 3 costs no turn: the iteration
    writes the error line to [cerr], leaves the player and the enemy as
    they are, and the loop goes on with the next iteration. *)
Theorem invalid_action_iteration
  (what : string -> string) (fuel : nat) (enemy : Enemy) (s : State)
  (p : Player) (a : Z) (i : IOS.istream) :
  player s = Some p ->
  0 < getHealth (base p) -> 0 < getHealth (base enemy) ->
  IOS.extract_int (cin s) 0 = (a, i) ->
  a <> 1 -> a <> 2 -> a <> 3 ->
  let s' := cerr ("Invalid action. Try again." ++ nl) (prompted p enemy i s) in
  play_body what enemy s = Ret (Continue, enemy, s') /\
  player s' = Some p /\
  file_content s' = file_content s /\
  console s' = (shown p enemy s ++ [Cerr ("Invalid action. Try again." ++ nl)])%list /\
  play_loop what (S fuel) enemy s = play_loop what fuel enemy s'.
Proof.
  intros Hp H1 H2 Ha N1 N2 N3 s'.
  assert (Hb : play_body what enemy s = Ret (Continue, enemy, s')).
  { rewrite (play_body_eq what enemy s p a i Hp Ha).
    destruct (Z.eqb_spec a 1); [contradiction|].
    destruct (Z.eqb_spec a 2); [contradiction|].
    destruct (Z.eqb_spec a 3); [contradiction|]. reflexivity. }
  split; [exact Hb|]. split; [exact Hp|]. split; [reflexivity|].
  split.
  { subst s'. cbn [console cerr put]. rewrite prompted_console. reflexivity. }
  exact (play_loop_step what fuel enemy enemy s s' p Hp H1 H2 Hb).
Qed.

Lemma invalid_action_iteration_witness :
  let s := concrete_state "7 1" None (Some (new_Player "Hero")) in
  exists s', play_body (fun m => m) (new_Enemy "Goblin") s
               = Ret (Continue, new_Enemy "Goblin", s') /\
             player s' = Some (new_Player "Hero").
Proof.
  intros s.
  destruct (invalid_action_iteration (fun m => m) 0 (new_Enemy "Goblin") s
              (new_Player "Hero") 7 (snd (IOS.extract_int (cin s) 0)))
    as (Hb & Hp & _).
  - reflexivity.
  - simpl. lia.
  - simpl. lia.
  - vm_compute. reflexivity.
  - lia.
  - lia.
  - lia.
  - eexists. split; [exact Hb|exact Hp].
Defined.

(** ** Input that cannot be read *)

(** On a stream with [failbit] set an extraction changes nothing. *)
Lemma extract_int_failed (i : IOS.istream) (n : Z) :
  IOS.failbit i = true -> IOS.extract_int i n = (n, i).
Proof.
  intros Hf. unfold IOS.extract_int, IOS.sentry, IOS.good. rewrite Hf.
  rewrite andb_false_r. destruct i as [b e f]. cbn in *. subst f. reflexivity.
Qed.

(** An extraction into a variable that holds [n] and ends with [failbit]
    set leaves [n], 0 or one of the two bounds of [int] in it. *)
Lemma extract_int_failbit_value (i : IOS.istream) (n : Z) :
  IOS.failbit (snd (IOS.extract_int i n)) = true ->
  let a := fst (IOS.extract_int i n) in
  a = n \/ a = 0 \/ a = Int.min_int \/ a = Int.max_int.
Proof.
  unfold IOS.extract_int.
  destruct (IOS.sentry i) as [[|] s1]; [|intros _; left; reflexivity].
  destruct (IOS.take_sign (IOS.rdbuf s1)) as [neg t].
  destruct (IOS.take_digits None t) as [[m|] r]; [|intros _; right; left; reflexivity].
  cbn [fst snd IOS.failbit]. intros Hf. apply negb_true_iff in Hf.
  right; right. unfold Int.saturate.
  destruct (Z.leb_spec Int.min_int (if neg then - m else m)) as [H1|H1];
    destruct (Z.leb_spec (if neg then - m else m) Int.max_int) as [H2|H2];
    try discriminate;
    destruct (Z.ltb_spec (if neg then - m else m) Int.min_int);
    destruct (Z.ltb_spec Int.max_int (if neg then - m else m));
    unfold Int.min_int, Int.max_int in *; try lia; tauto.
Qed.

Lemma play_loop_stuck (what : string -> string) (fuel : nat) :
  forall (enemy : Enemy) (s : State) (p : Player),
  player s = Some p ->
  0 < getHealth (base p) -> 0 < getHealth (base enemy) ->
  IOS.failbit (cin s) = true ->
  play_loop what fuel enemy s = OutOfFuel.
Proof.
  induction fuel as [|fuel IH]; intros enemy s p Hp H1 H2 Hf.
  - cbn [play_loop]. unfold deref. rewrite Hp. cbn [bind].
    destruct (Z.gtb_spec (getHealth (base p)) 0); [|lia].
    destruct (Z.gtb_spec (getHealth (base enemy)) 0); [|lia]. reflexivity.
  - assert (Hb : play_body what enemy s =
                 Ret (Continue, enemy,
                      cerr ("Invalid action. Try again." ++ nl)
                        (prompted p enemy (cin s) s))).
    { rewrite (play_body_eq what enemy s p 0 (cin s) Hp (extract_int_failed _ 0 Hf)).
      reflexivity. }
    rewrite (play_loop_step what fuel enemy enemy s _ p Hp H1 H2 Hb).
    apply (IH enemy _ p); [exact Hp|exact H1|exact H2|exact Hf].
Qed.

Lemma play_unreadable_action
  (what : string -> string) (s : State) (p : Player) :
  player s = Some p ->
  0 < getHealth (base p) ->
  IOS.failbit (snd (IOS.extract_int (cin s) 0)) = true ->
  forall fuel, play what fuel s = OutOfFuel.
Proof.
  intros Hp H1 Hf fuel. unfold play.
  assert (H2 : 0 < getHealth (base (new_Enemy "Goblin"))) by (simpl; lia).
  assert (Hl : play_loop what fuel (new_Enemy "Goblin") s = OutOfFuel).
  { destruct fuel as [|fuel].
    - cbn [play_loop]. unfold deref. rewrite Hp. cbn [bind].
      destruct (Z.gtb_spec (getHealth (base p)) 0); [|lia]. reflexivity.
    - destruct (IOS.extract_int (cin s) 0) as [a i] eqn:Ha.
      pose proof (extract_int_failbit_value (cin s) 0) as Hv.
      rewrite Ha in Hv. cbn [fst snd] in Hv, Hf. specialize (Hv Hf).
      assert (Hb : play_body what (new_Enemy "Goblin") s =
                   Ret (Continue, new_Enemy "Goblin",
                        cerr ("Invalid action. Try again." ++ nl)
                          (prompted p (new_Enemy "Goblin") i s))).
      { rewrite (play_body_eq what _ s p a i Hp Ha).
        unfold Int.min_int, Int.max_int in Hv.
        destruct (Z.eqb_spec a 1); [lia|].
        destruct (Z.eqb_spec a 2); [lia|].
        destruct (Z.eqb_spec a 3); [lia|]. reflexivity. }
      rewrite (play_loop_step what fuel _ _ s _ p Hp H1 H2 Hb).
      apply (play_loop_stuck what fuel _ _ p); [exact Hp|exact H1|exact H2|exact Hf]. }
  rewrite Hl. reflexivity.
Qed.

(** X6. When the action cannot be read (end of input, text that is no
    number, a number outside [int]), the combat loop never ends: no
    amount of fuel makes [play] return. *)
Theorem play_hangs_on_unreadable_action
  (what : string -> string) (s : State) (p : Player) :
  player s = Some p ->
  0 < getHealth (base p) ->
  IOS.failbit (snd (IOS.extract_int (cin s) 0)) = true ->
  forall fuel, play what fuel s = OutOfFuel.
Proof. exact (play_unreadable_action what s p). Qed.

Lemma play_hangs_on_unreadable_action_witness :
  play (fun m => m) 40 (concrete_state "attack" None (Some (new_Player "Hero")))
  = OutOfFuel.
Proof.
  apply (play_hangs_on_unreadable_action (fun m => m) _ (new_Player "Hero")).
  - reflexivity.
  - simpl. lia.
  - reflexivity.
Defined.

(** X15. A name of two words hangs a new game: [startGame] reads the
    first word as the name, the second is met where the action is
    expected, and [startGame] never returns.  The same holds when the
    input ends after the name. *)
Theorem startGame_hangs_after_name
  (what : string -> string) (s : State) :
  IOS.failbit
    (snd (IOS.extract_int (snd (IOS.extract_string (cin s) "")) 0)) = true ->
  forall fuel, startGame what fuel s = OutOfFuel.
Proof.
  intros Hf fuel. unfold startGame. cbn [cin cout put].
  destruct (IOS.extract_string (cin s) "") as [n i]. cbn [snd] in Hf.
  apply (play_unreadable_action what _ (new_Player n)).
  - reflexivity.
  - simpl. lia.
  - exact Hf.
Qed.

Lemma startGame_hangs_after_name_witness :
  startGame (fun m => m) 40 (concrete_state "John Smith 1 1 1" None None) = OutOfFuel.
Proof.
  apply (startGame_hangs_after_name (fun m => m)). reflexivity.
Defined.

Lemma displayMenu_loop_stuck
  (what : string -> string) (indeterminate : Z) (fuel : nat) :
  forall (choice : Z) (s : State),
  choice <> 1 -> choice <> 2 -> choice <> 3 ->
  IOS.failbit (cin s) = true ->
  displayMenu_loop what indeterminate fuel choice s = OutOfFuel.
Proof.
  induction fuel as [|fuel IH]; intros choice s N1 N2 N3 Hf; cbn [displayMenu_loop];
    destruct (Z.eqb_spec choice 3); try contradiction; [reflexivity|].
  unfold displayMenu_body. cbn [cin cout put].
  rewrite (extract_int_failed _ choice Hf).
  destruct (Z.eqb_spec choice 1); [contradiction|].
  destruct (Z.eqb_spec choice 2); [contradiction|].
  destruct (Z.eqb_spec choice 3); [contradiction|].
  cbn [bind]. apply IH; assumption.
Qed.

(** X7. When the first menu choice cannot be read (end of input, text
    that is no number, a number outside [int]), the menu loop never ends:
    it writes the error line over and over. *)
Theorem displayMenu_hangs_on_unreadable_choice
  (what : string -> string) (indeterminate : Z) (s : State) :
  IOS.failbit (snd (IOS.extract_int (cin s) 0)) = true ->
  forall fuel, displayMenu what indeterminate fuel s = OutOfFuel.
Proof.
  intros Hf fuel. unfold displayMenu. destruct fuel as [|fuel]; [reflexivity|].
  cbn [displayMenu_loop Z.eqb]. unfold displayMenu_body. cbn [cin cout put].
  destruct (IOS.extract_int (cin s) 0) as [a i] eqn:Ha.
  pose proof (extract_int_failbit_value (cin s) 0) as Hv.
  rewrite Ha in Hv. cbn [fst snd] in Hv, Hf. specialize (Hv Hf).
  unfold Int.min_int, Int.max_int in Hv.
  destruct (Z.eqb_spec a 1); [lia|].
  destruct (Z.eqb_spec a 2); [lia|].
  destruct (Z.eqb_spec a 3); [lia|].
  cbn [bind]. apply displayMenu_loop_stuck; assumption.
Qed.

Lemma displayMenu_hangs_on_unreadable_choice_witness :
  displayMenu (fun m => m) 0 40 (concrete_state "" None None) = OutOfFuel.
Proof.
  apply (displayMenu_hangs_on_unreadable_choice (fun m => m) 0). reflexivity.
Defined.

(** ** The menu *)

Lemma startGame_safe (what : string -> string) (fuel : nat) (s : State) :
  startGame what fuel s <> NullDeref /\
  forall s', startGame what fuel s = Ret s' -> player s' = None.
Proof.
  unfold startGame. cbn [cin cout put].
  destruct (IOS.extract_string (cin s) "") as [n i]. split.
  - apply (play_no_null what fuel _ (new_Player n)). reflexivity.
  - intros s'. apply play_player_none.
Qed.

Lemma loadGame_safe
  (what : string -> string) (indeterminate : Z) (fuel : nat) (s : State) :
  loadGame what indeterminate fuel s <> NullDeref /\
  forall s', loadGame what indeterminate fuel s = Ret s' ->
             player s' = None \/ player s' = player s.
Proof.
  unfold loadGame. destruct (ifstream_open s) as [file|].
  - split.
    + unfold loadGame_restore.
      destruct (IOS.extract_string file "") as [n f1].
      destruct (IOS.extract_int f1 indeterminate) as [v f2].
      eapply play_no_null. reflexivity.
    + intros s' H. left. exact (play_player_none what fuel _ s' H).
  - split; [discriminate|]. intros s' H. injection H as <-. right. reflexivity.
Qed.

Lemma displayMenu_body_safe
  (what : string -> string) (indeterminate : Z) (fuel : nat) (choice : Z) (s : State) :
  displayMenu_body what indeterminate fuel choice s <> NullDeref /\
  forall c' s1,
    displayMenu_body what indeterminate fuel choice s = Ret (c', s1) ->
    (player s = None -> player s1 = None) /\
    (c' = 3 -> exists l, console s1 = (l ++ [Cout farewell_text])%list).
Proof.
  unfold displayMenu_body. cbn [cin cout put].
  destruct (IOS.extract_int (cin s) choice) as [a i].
  destruct (Z.eqb_spec a 1) as [E1|N1].
  { match goal with
    | |- context [startGame what fuel ?s0] =>
        destruct (startGame_safe what fuel s0) as [Hn Hr];
        destruct (startGame what fuel s0) as [s1| |]; cbn [bind]
    end; (split; [try discriminate; try contradiction|]); try discriminate.
    intros c' s2 H. injection H as <- <-. split; [intros _; apply Hr; reflexivity|].
    intros E. lia. }
  destruct (Z.eqb_spec a 2) as [E2|N2].
  { match goal with
    | |- context [loadGame what indeterminate fuel ?s0] =>
        destruct (loadGame_safe what indeterminate fuel s0) as [Hn Hr];
        destruct (loadGame what indeterminate fuel s0) as [s1| |]; cbn [bind]
    end; (split; [try discriminate; try contradiction|]); try discriminate.
    intros c' s2 H. injection H as <- <-. split; [|intros E; lia].
    intros Hs. destruct (Hr s1 eq_refl) as [H|H]; [exact H|].
    rewrite H. exact Hs. }
  destruct (Z.eqb_spec a 3) as [E3|N3].
  { split; [discriminate|]. intros c' s1 H. injection H as <- <-.
    split; [intros Hs; exact Hs|]. intros _. eexists. reflexivity. }
  split; [discriminate|]. intros c' s1 H. injection H as <- <-.
  split; [intros Hs; exact Hs|]. intros E. contradiction.
Qed.

Lemma displayMenu_loop_safe
  (what : string -> string) (indeterminate : Z) (fuel : nat) :
  forall (choice : Z) (s : State),
  displayMenu_loop what indeterminate fuel choice s <> NullDeref /\
  forall s', displayMenu_loop what indeterminate fuel choice s = Ret s' ->
    (player s = None -> player s' = None) /\
    ((choice = 3 /\ s' = s) \/
     exists l, console s' = (l ++ [Cout farewell_text])%list).
Proof.
  induction fuel as [|fuel IH]; intros choice s; cbn [displayMenu_loop];
    destruct (Z.eqb_spec choice 3) as [E|N].
  - split; [discriminate|]. intros s' H. injection H as <-.
    split; [tauto|left; split; [exact E|reflexivity]].
  - split; discriminate.
  - split; [discriminate|]. intros s' H. injection H as <-.
    split; [tauto|left; split; [exact E|reflexivity]].
  - destruct (displayMenu_body_safe what indeterminate fuel choice s) as [Hn Hr].
    destruct (displayMenu_body what indeterminate fuel choice s) as [[c1 s1]| |];
      cbn [bind]; [|split; [contradiction|discriminate]|split; discriminate].
    destruct (Hr c1 s1 eq_refl) as [Hp Hfw].
    destruct (IH c1 s1) as [Hn1 Hr1]. split; [exact Hn1|].
    intros s' H. destruct (Hr1 s' H) as [Hp1 Hl].
    split; [tauto|]. right.
    destruct Hl as [[E ->]|Hl]; [exact (Hfw E)|exact Hl].
Qed.

(** X8. The menu never dereferences the null [player] pointer, whatever
    is typed and whatever the file holds.  When it returns, the last line
    written is the farewell, and a [player] pointer that was null at the
    start is null again: every game begun from the menu has released its
    player. *)
Theorem displayMenu_safe
  (what : string -> string) (indeterminate : Z) (fuel : nat) (s : State) :
  displayMenu what indeterminate fuel s <> NullDeref /\
  forall s', displayMenu what indeterminate fuel s = Ret s' ->
    (player s = None -> player s' = None) /\
    exists l, console s' = (l ++ [Cout farewell_text])%list.
Proof.
  unfold displayMenu.
  destruct (displayMenu_loop_safe what indeterminate fuel 0 s) as [Hn Hr].
  split; [exact Hn|]. intros s' H. destruct (Hr s' H) as [Hp [[E _]|Hl]].
  - discriminate E.
  - split; assumption.
Qed.

Lemma displayMenu_safe_witness :
  let s := concrete_state "2 1 Hero 1 3 2 3 3" None None in
  displayMenu (fun m => m) 7 9 s <> NullDeref /\
  exists s', displayMenu (fun m => m) 7 9 s = Ret s' /\ player s' = None.
Proof.
  intros s.
  destruct (displayMenu_safe (fun m => m) 7 9 s) as [Hn Hr].
  split; [exact Hn|].
  eexists. split; [vm_compute; reflexivity|].
  apply Hr; [vm_compute; reflexivity|reflexivity].
Defined.



(** ** A save that fails *)

(** X10. When the file cannot be opened for writing, save and exit still
    leaves the loop and releases the player: the error line is written,
    the file keeps its content, and the game in progress is gone. *)
Theorem failed_save_still_exits
  (what : string -> string) (fuel : nat) (enemy : Enemy) (s : State)
  (p : Player) (i : IOS.istream) :
  player s = Some p ->
  0 < getHealth (base p) -> 0 < getHealth (base enemy) ->
  IOS.extract_int (cin s) 0 = (3, i) ->
  file_writable s = false ->
  let s' := set_player None
              (cerr ("Error saving game: " ++ what "Failed to open file for saving." ++ nl)
                 (prompted p enemy i s)) in
  play_loop what (S fuel) enemy s = Ret (Return, enemy, s') /\
  player s' = None /\
  file_content s' = file_content s /\
  console s' =
    (shown p enemy s
       ++ [Cerr ("Error saving game: " ++ what "Failed to open file for saving." ++ nl)])%list.
Proof.
  intros Hp H1 H2 Ha Hw s'. split.
  - rewrite (save_iteration what fuel enemy s p i Hp H1 H2 Ha).
    rewrite (saveGame_not_writable what (prompted p enemy i s) Hw). reflexivity.
  - split; [reflexivity|]. split; [reflexivity|].
    subst s'. cbn [console set_player cerr put]. rewrite prompted_console. reflexivity.
Qed.

Lemma failed_save_still_exits_witness :
  let s := {| cin := IOS.open "3"; console := []; file_content := Some "old";
              file_readable := true; file_writable := false;
              player := Some (new_Player "Hero") |} in
  exists s', play_loop (fun m => m) 1 (new_Enemy "Goblin") s
               = Ret (Return, new_Enemy "Goblin", s') /\
             player s' = None /\ file_content s' = Some "old".
Proof.
  intros s.
  destruct (failed_save_still_exits (fun m => m) 0 (new_Enemy "Goblin") s
              (new_Player "Hero") (snd (IOS.extract_int (cin s) 0)))
    as (Hl & Hp & Hc & _).
  - reflexivity.
  - simpl. lia.
  - simpl. lia.
  - vm_compute. reflexivity.
  - reflexivity.
  - eexists. split; [exact Hl|]. split; [exact Hp|exact Hc].
Defined.


(** ** More on loading *)

(** X11. A file whose health field reads as 0 or less loads as a player
    of health 0: [loadGame] reports nothing, [play] is entered and ends at
    once with the defeat message, without reading any input. *)
Theorem loadGame_nonpositive_health
  (what : string -> string) (indeterminate : Z) (fuel : nat) (s : State)
  (text : string) :
  Int.in_range indeterminate ->
  file_content s = Some text -> file_readable s = true ->
  fst (IOS.extract_int (snd (IOS.extract_string (IOS.open text) "")) indeterminate) <= 0 ->
  let loaded := {| player_base := {| name := fst (IOS.extract_string (IOS.open text) "");
                                     health := 0 |};
                   treasuresCollected := 0 |} in
  player (loadGame_restore indeterminate (IOS.open text) s) = Some loaded /\
  loadGame what indeterminate fuel s =
    Ret (set_player None
           (cout defeat_text (loadGame_restore indeterminate (IOS.open text) s))) /\
  forall s', loadGame what indeterminate fuel s = Ret s' ->
    player s' = None /\ cin s' = cin s /\
    console s' =
      (console s ++ [Cout ("Game state loaded successfully." ++ nl);
                     Cout defeat_text])%list.
Proof.
  intros Hi Hc Hr Hv loaded.
  pose proof (loadGame_restore_player indeterminate (IOS.open text) s Hi) as Hrest.
  cbv zeta in Hrest.
  rewrite (Z.max_l 0 _ Hv) in Hrest. fold loaded in Hrest.
  assert (Hp : player (loadGame_restore indeterminate (IOS.open text) s) = Some loaded)
    by (rewrite Hrest; reflexivity).
  assert (Hl : loadGame what indeterminate fuel s =
    Ret (set_player None
           (cout defeat_text (loadGame_restore indeterminate (IOS.open text) s)))).
  { unfold loadGame, ifstream_open. rewrite Hc, Hr.
    apply (play_defeated_on_entry what fuel _ loaded Hp). reflexivity. }
  split; [exact Hp|]. split; [exact Hl|].
  intros s' Hs'. rewrite Hl in Hs'. injection Hs' as <-. rewrite Hrest.
  split; [reflexivity|]. split; [reflexivity|].
  cbn [console set_player cout put]. rewrite <- !app_assoc. reflexivity.
Qed.

Lemma loadGame_nonpositive_health_witness :
  let s := concrete_state "1 1" (Some ("Hero" ++ nl ++ "-5" ++ nl)) None in
  exists s', loadGame (fun m => m) 0 0 s = Ret s' /\
             player s' = None /\ cin s' = cin s.
Proof.
  intros s.
  destruct (loadGame_nonpositive_health (fun m => m) 0 0 s ("Hero" ++ nl ++ "-5" ++ nl))
    as (_ & Hl & Hr).
  - unfold Int.in_range, Int.min_int, Int.max_int. lia.
  - reflexivity.
  - reflexivity.
  - vm_compute. discriminate.
  - eexists. split; [exact Hl|]. destruct (Hr _ Hl) as (H1 & H2 & _). tauto.
Defined.

(** ** Damage *)

(** X12. Damage adds up: for amounts of 0 or more whose sum is an
    [int], taking [a] and then [b] leaves the health that taking [a + b]
    at once leaves. *)
Theorem takeDamage_accumulates (a b : Z) (c : Character) :
  0 <= health c <= Int.max_int ->
  0 <= a -> 0 <= b -> a + b <= Int.max_int ->
  takeDamage b (takeDamage a c) = takeDamage (a + b) c.
Proof.
  intros Hh Ha Hb Hab.
  assert (E1 : health (takeDamage a c) = Z.max 0 (health c - a)).
  { apply takeDamage_no_wrap.
    unfold Int.in_range, Int.min_int, Int.max_int in *. lia. }
  assert (E2 : health (takeDamage b (takeDamage a c))
               = Z.max 0 (health (takeDamage a c) - b)).
  { apply takeDamage_no_wrap. rewrite E1.
    unfold Int.in_range, Int.min_int, Int.max_int in *. lia. }
  assert (E3 : health (takeDamage (a + b) c) = Z.max 0 (health c - (a + b))).
  { apply takeDamage_no_wrap.
    unfold Int.in_range, Int.min_int, Int.max_int in *. lia. }
  destruct (takeDamage b (takeDamage a c)) as [n1 h1] eqn:D1.
  destruct (takeDamage (a + b) c) as [n2 h2] eqn:D2.
  assert (N1 : n1 = name c) by (change n1 with (name {| name := n1; health := h1 |});
                                rewrite <- D1; reflexivity).
  assert (N2 : n2 = name c) by (change n2 with (name {| name := n2; health := h2 |});
                                rewrite <- D2; reflexivity).
  cbn [health] in E2, E3. rewrite E1 in E2. subst n1 n2. f_equal. lia.
Qed.

Lemma takeDamage_accumulates_witness :
  takeDamage 15 (takeDamage 20 {| name := "Hero"; health := 30 |})
  = takeDamage (20 + 15) {| name := "Hero"; health := 30 |}.
Proof.
  apply takeDamage_accumulates; simpl; unfold Int.max_int; lia.
Defined.

(** X13. The combat loop never heals: from healths that are non-negative
    values of [int], a run of the loop that ends at the loop test leaves
    the player and the enemy with a health between 0 and the one they
    had. *)
Theorem combat_never_heals
  (what : string -> string) (fuel : nat) (enemy enemy' : Enemy) (s s' : State)
  (p : Player) :
  player s = Some p ->
  0 <= getHealth (base p) <= Int.max_int ->
  0 <= getHealth (base enemy) <= Int.max_int ->
  play_loop what fuel enemy s = Ret (Continue, enemy', s') ->
  exists p',
    player s' = Some p' /\
    0 <= getHealth (base p') <= getHealth (base p) /\
    0 <= getHealth (base enemy') <= getHealth (base enemy).
Proof.
  intros Hp Hhp Hhe Hl.
  set (P := fun (e0 : Enemy) (s0 : State) =>
              exists p0, player s0 = Some p0 /\
                0 <= getHealth (base p0) <= getHealth (base p) /\
                0 <= getHealth (base e0) <= getHealth (base enemy)).
  assert (Hstep : forall en s0 e1 s1 q,
            P en s0 -> player s0 = Some q ->
            0 < getHealth (base q) -> 0 < getHealth (base en) ->
            play_body what en s0 = Ret (Continue, e1, s1) -> P e1 s1).
  { intros en s0 e1 s1 q (p0 & Hp0 & Hb1 & Hb2) Hq _ _ Hb.
    rewrite Hq in Hp0. injection Hp0 as <-.
    assert (Hd20 : getHealth (takeDamage 20 (base en))
                   = Z.max 0 (getHealth (base en) - 20)).
    { apply takeDamage_no_wrap.
      unfold getHealth, Int.in_range, Int.min_int, Int.max_int in *. lia. }
    assert (Hd15 : getHealth (takeDamage 15 (base q))
                   = Z.max 0 (getHealth (base q) - 15)).
    { apply takeDamage_no_wrap.
      unfold getHealth, Int.in_range, Int.min_int, Int.max_int in *. lia. }
    apply play_body_cases in Hb.
    destruct Hb as (q' & a & i & Hq' & Ha & Hcases).
    rewrite Hq in Hq'. injection Hq' as <-.
    destruct Hcases as [(_ & _ & He & [(_ & Hs) | (_ & Hs)])
                       | [(_ & _ & He & Hs)
                         | [(_ & Hfl & _) | (_ & _ & _ & _ & He & Hs)]]];
      try discriminate; subst e1 s1.
    - eexists. split; [reflexivity|].
      cbn [base set_base Player_ops Enemy_ops player_base enemy_base] in *.
      rewrite Hd20, Hd15. lia.
    - exists q. split; [exact Hq|].
      cbn [base set_base Player_ops Enemy_ops player_base enemy_base] in *.
      rewrite Hd20. lia.
    - eexists. split; [reflexivity|]. cbn [collectTreasure snd base Player_ops player_base].
      cbn [base Player_ops] in Hb1. lia.
    - exists q. split; [exact Hq|]. lia. }
  assert (H0 : P enemy s) by (exists p; split; [exact Hp|lia]).
  destruct (play_loop_invariant what P Hstep fuel _ _ _ _ _ H0 Hl)
    as [(_ & HP & _) | (Hf & _)]; [exact HP|discriminate].
Qed.

Lemma combat_never_heals_witness :
  let s := concrete_state "1 2 1 1" None (Some (new_Player "Hero")) in
  exists enemy' s' p',
    play_loop (fun m => m) 4 (new_Enemy "Goblin") s = Ret (Continue, enemy', s') /\
    player s' = Some p' /\
    0 <= getHealth (base p') <= 100.
Proof.
  intros s.
  assert (Hl : exists enemy' s',
            play_loop (fun m => m) 4 (new_Enemy "Goblin") s = Ret (Continue, enemy', s'))
    by (do 2 eexists; vm_compute; reflexivity).
  destruct Hl as (enemy' & s' & Hl).
  destruct (combat_never_heals (fun m => m) 4 (new_Enemy "Goblin") enemy' s s'
              (new_Player "Hero")) as (p' & Hp' & Hb & _).
  - reflexivity.
  - simpl. unfold Int.max_int. lia.
  - simpl. unfold Int.max_int. lia.
  - exact Hl.
  - exists enemy', s', p'. split; [exact Hl|]. split; [exact Hp'|exact Hb].
Defined.

(** X14. A player of health 15 or less loses to the first exchange: the
    enemy of health 50 survives the attack, its answer takes the player to
    0, and [play] ends with the defeat message. *)
Theorem one_exchange_defeat
  (what : string -> string) (fuel : nat) (s : State) (p : Player) (i : IOS.istream) :
  player s = Some p ->
  0 < getHealth (base p) <= 15 ->
  IOS.extract_int (cin s) 0 = (1, i) ->
  let enemy := new_Enemy "Goblin" in
  play what (S fuel) s =
    Ret (set_player None (cout defeat_text (attack_answered p enemy i s))) /\
  player (attack_answered p enemy i s)
    = Some {| player_base := {| name := getName (base p); health := 0 |};
              treasuresCollected := treasuresCollected p |}.
Proof.
  intros Hp Hh Ha enemy.
  assert (Hd15 : getHealth (takeDamage 15 (base p)) = 0).
  { unfold getHealth. rewrite takeDamage_no_wrap;
      unfold getHealth, Int.in_range, Int.min_int, Int.max_int in *; lia. }
  assert (Hq : player (attack_answered p enemy i s)
               = Some {| player_base := {| name := getName (base p); health := 0 |};
                         treasuresCollected := treasuresCollected p |}).
  { unfold attack_answered. cbn [player set_player]. f_equal.
    cbn [set_base base Player_ops player_base] in *. f_equal.
    destruct (takeDamage 15 (player_base p)) as [n h] eqn:E.
    assert (n = name (player_base p))
      by (change n with (name {| name := n; health := h |}); rewrite <- E; reflexivity).
    unfold getHealth in Hd15. cbn [health] in Hd15. subst n h. reflexivity. }
  split; [|exact Hq].
  assert (Hb : play_body what enemy s =
               Ret (Continue, set_base (takeDamage 20 (base enemy)) enemy,
                    attack_answered p enemy i s)).
  { rewrite (play_body_eq what enemy s p 1 i Hp Ha). reflexivity. }
  unfold play. fold enemy.
  rewrite (play_loop_step what fuel enemy _ s _ p Hp (proj1 Hh) eq_refl Hb).
  assert (Hl : play_loop what fuel (set_base (takeDamage 20 (base enemy)) enemy)
                 (attack_answered p enemy i s)
               = Ret (Continue, set_base (takeDamage 20 (base enemy)) enemy,
                      attack_answered p enemy i s)).
  { destruct fuel; cbn [play_loop]; unfold deref; rewrite Hq; reflexivity. }
  rewrite Hl. cbn [bind]. unfold play_end, deref. rewrite Hq. reflexivity.
Qed.

Lemma one_exchange_defeat_witness :
  let p := {| player_base := {| name := "Hero"; health := 10 |};
              treasuresCollected := 0 |} in
  let s := concrete_state "1" None (Some p) in
  exists sk, play (fun m => m) 1 s = Ret (set_player None (cout defeat_text sk)).
Proof.
  intros p s.
  destruct (one_exchange_defeat (fun m => m) 0 s p (snd (IOS.extract_int (cin s) 0)))
    as [H _].
  - reflexivity.
  - simpl. lia.
  - vm_compute. reflexivity.
  - eexists. exact H.
Defined.

(** ** From a new game to the file and back *)

Lemma skipws_head (s : string) (c : ascii) (t : string) :
  IOS.skipws s = String c t -> IOS.isspace c = false.
Proof.
  induction s as [|a s IH]; cbn [IOS.skipws]; [discriminate|].
  destruct (IOS.isspace a) eqn:Ha; [exact IH|].
  intros H. injection H as <- _. exact Ha.
Qed.

Lemma take_word_no_space (s : string) : no_space (fst (IOS.take_word s)) = true.
Proof.
  induction s as [|a s IH]; cbn [IOS.take_word]; [reflexivity|].
  destruct (IOS.isspace a) eqn:Ha; [reflexivity|].
  destruct (IOS.take_word s) as [w r]. cbn [fst no_space] in *.
  rewrite Ha, IH. reflexivity.
Qed.

(** A name that [operator>>] has read without setting [failbit] is a
    token. *)
Lemma extract_string_is_token (i : IOS.istream) (str : string) :
  IOS.failbit (snd (IOS.extract_string i str)) = false ->
  is_token (fst (IOS.extract_string i str)) = true.
Proof.
  unfold IOS.extract_string, IOS.sentry.
  destruct (IOS.good i); [|intros H; discriminate H].
  destruct (IOS.skipws (IOS.rdbuf i)) as [|c t] eqn:Hs; cbn [IOS.is_empty];
    [intros H; discriminate H|].
  cbn [IOS.rdbuf]. pose proof (take_word_no_space (String c t)) as Hn.
  pose proof (skipws_head _ c t Hs) as Hc.
  cbn [IOS.take_word] in *. rewrite Hc in *.
  destruct (IOS.take_word t) as [w r]. cbn [fst snd] in *. intros _.
  unfold is_token. cbn [IOS.is_empty negb andb]. exact Hn.
Qed.

(** X16. A game that is started and saved at once can be loaded: when
    the name is read and the first action is 3, [startGame] writes the
    name and the health 100 to the file and returns with the player
    released; [loadGame] on a state that holds that file opens it,
    restores a player of that name at health 100 with no treasure, and
    enters [play] with exactly the state it was called on, the
    confirmation line and that player. *)
Theorem started_game_reloads
  (what : string -> string) (indeterminate : Z) (fuel fuel' : nat) (s : State)
  (n : string) (i1 i2 : IOS.istream) :
  IOS.extract_string (cin s) "" = (n, i1) ->
  IOS.failbit i1 = false ->
  IOS.extract_int i1 0 = (3, i2) ->
  file_writable s = true ->
  let text := n ++ nl ++ "100" ++ nl in
  let s0 := cout ("Starting new game..." ++ nl)
              (set_player (Some (new_Player n))
                 (set_cin i1 (cout "Enter your name: " s))) in
  let s1 := set_player None
              (cout ("Game state saved successfully." ++ nl)
                 (set_file text (prompted (new_Player n) (new_Enemy "Goblin") i2 s0))) in
  startGame what (S fuel) s = Ret s1 /\
  player s1 = None /\
  file_content s1 = Some text /\
  forall s2,
    file_content s2 = file_content s1 -> file_readable s2 = true ->
    ifstream_open s2 = Some (IOS.open text) /\
    loadGame_restore indeterminate (IOS.open text) s2 =
      cout ("Game state loaded successfully." ++ nl)
        (set_player (Some (new_Player n)) s2) /\
    loadGame what indeterminate fuel' s2 =
      play what fuel'
        (cout ("Game state loaded successfully." ++ nl)
           (set_player (Some (new_Player n)) s2)).
Proof.
  intros Hn Hf Ha Hw text s0 s1.
  assert (Htok : is_token n = true).
  { pose proof (extract_string_is_token (cin s) "") as H.
    rewrite Hn in H. exact (H Hf). }
  assert (Hstart : startGame what (S fuel) s = play what (S fuel) s0).
  { unfold startGame. cbn [cin cout put]. rewrite Hn. reflexivity. }
  assert (Hl : play_loop what (S fuel) (new_Enemy "Goblin") s0 =
               (s2 <- saveGame what (prompted (new_Player n) (new_Enemy "Goblin") i2 s0) ;;
                Ret (Return, new_Enemy "Goblin", set_player None s2))).
  { apply save_iteration; [reflexivity|simpl; lia|simpl; lia|exact Ha]. }
  rewrite (saveGame_writable what
             (prompted (new_Player n) (new_Enemy "Goblin") i2 s0) (new_Player n)
             Hw eq_refl) in Hl.
  cbn [bind] in Hl.
  split.
  { rewrite Hstart. unfold play. rewrite Hl. reflexivity. }
  split; [reflexivity|]. split; [reflexivity|].
  intros s2 Hc Hr. change (file_content s1) with (Some text) in Hc.
  assert (Ho : ifstream_open s2 = Some (IOS.open text))
    by (unfold ifstream_open; rewrite Hc, Hr; reflexivity).
  assert (Hrest : loadGame_restore indeterminate (IOS.open text) s2 =
                  cout ("Game state loaded successfully." ++ nl)
                    (set_player (Some (new_Player n)) s2)).
  { unfold loadGame_restore. subst text.
    rewrite (extract_string_token n ("100" ++ nl) "" Htok).
    change (IOS.extract_int
              {| IOS.rdbuf := nl ++ "100" ++ nl; IOS.eofbit := false;
                 IOS.failbit := false |}
              indeterminate)
      with (100, {| IOS.rdbuf := nl; IOS.eofbit := false; IOS.failbit := false |}).
    reflexivity. }
  split; [exact Ho|]. split; [exact Hrest|].
  unfold loadGame. rewrite Ho, Hrest. reflexivity.
Qed.

Lemma started_game_reloads_witness :
  let s := concrete_state "Hero 3" None None in
  exists s1 s',
    startGame (fun m => m) 1 s = Ret s1 /\
    file_content s1 = Some ("Hero" ++ nl ++ "100" ++ nl) /\
    loadGame (fun m => m) 0 5 (set_cin (IOS.open "1 1 1") s1) = Ret s' /\
    nth_error (console s') 7
      = Some (Cout ("Player: Hero, Health: 100, Treasures: 0" ++ nl)) /\
    player s' = None.
Proof.
  intros s.
  destruct (started_game_reloads (fun m => m) 0 0 5 s "Hero"
              (snd (IOS.extract_string (cin s) ""))
              (snd (IOS.extract_int (snd (IOS.extract_string (cin s) "")) 0)))
    as (Hstart & _ & Hfile & Hload).
  - vm_compute. reflexivity.
  - reflexivity.
  - vm_compute. reflexivity.
  - reflexivity.
  - eexists. eexists. split; [exact Hstart|]. split; [exact Hfile|].
    match goal with
    | |- loadGame _ _ _ ?s2 = _ /\ _ =>
        destruct (Hload s2 eq_refl eq_refl) as (_ & _ & Hl)
    end.
    split; [rewrite Hl; vm_compute; reflexivity|].
    split; reflexivity.
Defined.

Lemma save_load_round_trip_witness :
  let p := {| player_base := {| name := "Hero"; health := 55 |};
              treasuresCollected := 3 |} in
  let s := concrete_state "" None (Some p) in
  exists s1,
    saveGame (fun m => m) s = Ret s1 /\
    forall s2,
      file_content s2 = file_content s1 -> file_readable s2 = true ->
      exists file,
        ifstream_open s2 = Some file /\
        player (loadGame_restore 0 file s2) =
        Some {| player_base := base p; treasuresCollected := 0 |}.
Proof.
  intros p s. apply (save_load_round_trip (fun m => m) 0 s p).
  - reflexivity.
  - reflexivity.
  - reflexivity.
  - simpl. unfold Int.max_int. lia.
Defined.

(** ** Who can win *)

Lemma at_pair_step
  (what : string -> string) (pair : Z -> Z -> Prop) :
  (forall hp he, pair hp he -> 0 < hp -> 0 < he ->
     0 <= hp <= Int.max_int /\ 0 <= he <= Int.max_int /\
     (0 < he - 20 -> pair (Z.max 0 (hp - 15)) (he - 20)) /\
     (he - 20 <= 0 -> pair hp 0)) ->
  forall (enemy : Enemy) (s : State) (e1 : Enemy) (s1 : State) (p : Player),
  at_pair pair enemy s -> player s = Some p ->
  0 < getHealth (base p) -> 0 < getHealth (base enemy) ->
  play_body what enemy s = Ret (Continue, e1, s1) -> at_pair pair e1 s1.
Proof.
  intros Hpair enemy s e1 s1 p (q & Hq & Hf) Hp H1 H2 Hb.
  rewrite Hp in Hq. injection Hq as <-.
  destruct (Hpair _ _ Hf H1 H2) as (Rp & Re & Hgt & Hle).
  assert (Hd20 : getHealth (takeDamage 20 (base enemy))
                 = Z.max 0 (getHealth (base enemy) - 20)).
  { apply takeDamage_no_wrap.
    unfold getHealth, Int.in_range, Int.min_int, Int.max_int in *. lia. }
  assert (Hd15 : getHealth (takeDamage 15 (base p))
                 = Z.max 0 (getHealth (base p) - 15)).
  { apply takeDamage_no_wrap.
    unfold getHealth, Int.in_range, Int.min_int, Int.max_int in *. lia. }
  apply play_body_cases in Hb.
  destruct Hb as (q & a & i & Hq & Ha & Hcases).
  rewrite Hp in Hq. injection Hq as <-.
  destruct Hcases as [(_ & _ & He & [(Hg & Hs) | (Hl & Hs)])
                     | [(_ & _ & He & Hs)
                       | [(_ & Hfl & _) | (_ & _ & _ & _ & He & Hs)]]];
    try discriminate; subst e1 s1.
  - eexists. split; [reflexivity|].
    cbn [base set_base Player_ops Enemy_ops player_base enemy_base] in *.
    rewrite Hd20, Hd15. rewrite Hd20 in Hg.
    replace (Z.max 0 (getHealth (enemy_base enemy) - 20))
      with (getHealth (enemy_base enemy) - 20) by lia.
    apply Hgt. lia.
  - exists p. split; [exact Hp|].
    cbn [base set_base Player_ops Enemy_ops player_base enemy_base] in *.
    rewrite Hd20. rewrite Hd20 in Hl.
    replace (Z.max 0 (getHealth (enemy_base enemy) - 20)) with 0 by lia.
    apply Hle. lia.
  - eexists. split; [reflexivity|]. exact Hf.
  - exists p. split; [exact Hp|]. exact Hf.
Qed.

(** How a run of [play] ends when the healths at the loop test stay in
    [pair]: with the line [line] when every pair that fails the test calls
    for it. *)
Lemma play_ends_with
  (what : string -> string) (pair : Z -> Z -> Prop) (line : string)
  (fuel : nat) (s s' : State) :
  (forall enemy s0 e1 s1 p,
     at_pair pair enemy s0 -> player s0 = Some p ->
     0 < getHealth (base p) -> 0 < getHealth (base enemy) ->
     play_body what enemy s0 = Ret (Continue, e1, s1) -> at_pair pair e1 s1) ->
  (forall hp he, pair hp he -> hp <= 0 \/ he <= 0 ->
     (if hp <=? 0 then defeat_text else if he <=? 0 then victory_text else "") = line) ->
  at_pair pair (new_Enemy "Goblin") s ->
  play what fuel s = Ret s' ->
  exists delta,
    no_outcome delta /\
    (console s' = (console s ++ delta)%list \/
     console s' = (console s ++ delta ++ [Cout line])%list).
Proof.
  intros Hstep Hline H0 H. unfold play in H.
  destruct (play_loop what fuel (new_Enemy "Goblin") s) as [[[f e1] s1]| |] eqn:Hl;
    cbn [bind] in H; try discriminate.
  destruct (play_loop_console what fuel _ _ _ _ _ Hl) as (d & Hc & Hn).
  exists d. split; [exact Hn|].
  destruct (play_loop_invariant what (at_pair pair) Hstep fuel _ _ _ _ _ H0 Hl)
    as [(Hf & (q & Hq & Hpq) & p & Hp & Hex) | (Hf & _)]; subst f.
  - right. rewrite Hp in Hq. injection Hq as <-.
    specialize (Hline _ _ Hpq Hex).
    assert (E : play_end e1 s1 = Ret (set_player None (cout line s1))).
    { unfold play_end, deref. rewrite Hp. cbn [bind]. revert Hline.
      destruct (Z.leb_spec (getHealth (base p)) 0) as [A|A];
        [intros <-; reflexivity|].
      destruct (Z.leb_spec (getHealth (base e1)) 0) as [B|B];
        [intros <-; reflexivity|].
      exfalso. lia. }
    rewrite E in H. injection H as <-.
    cbn [console set_player cout put]. rewrite Hc, <- app_assoc. reflexivity.
  - left. injection H as <-. exact Hc.
Qed.

(** X18. A player who enters [play] with a health above 30 cannot lose:
    if [play] returns, it has written no outcome line (save and exit) or
    the victory message as its last line. *)
Theorem strong_player_never_defeated
  (what : string -> string) (fuel : nat) (s s' : State) (p : Player) :
  player s = Some p ->
  30 < getHealth (base p) <= Int.max_int ->
  play what fuel s = Ret s' ->
  exists delta,
    no_outcome delta /\
    (console s' = (console s ++ delta)%list \/
     console s' = (console s ++ delta ++ [Cout victory_text])%list).
Proof.
  intros Hp Hh H.
  apply (play_ends_with what (strong_pair (getHealth (base p))) victory_text fuel s s');
    [| | |exact H].
  - apply at_pair_step. intros hp he Hpair H1 H2.
    unfold strong_pair, Int.max_int in *. lia.
  - intros hp he Hpair Hex. unfold strong_pair in Hpair.
    destruct (Z.leb_spec hp 0); [lia|].
    destruct (Z.leb_spec he 0); [reflexivity|lia].
  - exists p. split; [exact Hp|]. left. split; reflexivity.
Qed.

Lemma strong_player_never_defeated_witness :
  let p := {| player_base := {| name := "Hero"; health := 31 |};
              treasuresCollected := 0 |} in
  let s := concrete_state "1 1 1" None (Some p) in
  exists s' delta,
    play (fun m => m) 3 s = Ret s' /\
    no_outcome delta /\
    (console s' = (console s ++ delta)%list \/
     console s' = (console s ++ delta ++ [Cout victory_text])%list).
Proof.
  intros p s.
  assert (H : exists s', play (fun m => m) 3 s = Ret s')
    by (eexists; vm_compute; reflexivity).
  destruct H as [s' H].
  destruct (strong_player_never_defeated (fun m => m) 3 s s' p) as (delta & Hd).
  - reflexivity.
  - simpl. unfold Int.max_int. lia.
  - exact H.
  - exists s', delta. split; [exact H|exact Hd].
Defined.

(** X19. A player who enters [play] with a health of 30 or less cannot
    win: if [play] returns, it has written no outcome line (save and exit)
    or the defeat message as its last line. *)
Theorem weak_player_never_wins
  (what : string -> string) (fuel : nat) (s s' : State) (p : Player) :
  player s = Some p ->
  0 <= getHealth (base p) <= 30 ->
  play what fuel s = Ret s' ->
  exists delta,
    no_outcome delta /\
    (console s' = (console s ++ delta)%list \/
     console s' = (console s ++ delta ++ [Cout defeat_text])%list).
Proof.
  intros Hp Hh H.
  apply (play_ends_with what (weak_pair (getHealth (base p))) defeat_text fuel s s');
    [| | |exact H].
  - apply at_pair_step. intros hp he Hpair H1 H2.
    unfold weak_pair, Int.max_int in *. lia.
  - intros hp he Hpair Hex. unfold weak_pair in Hpair.
    destruct (Z.leb_spec hp 0); [reflexivity|lia].
  - exists p. split; [exact Hp|]. left. split; reflexivity.
Qed.

Lemma weak_player_never_wins_witness :
  let p := {| player_base := {| name := "Hero"; health := 30 |};
              treasuresCollected := 0 |} in
  let s := concrete_state "1 1 1" None (Some p) in
  exists s' delta,
    play (fun m => m) 3 s = Ret s' /\
    no_outcome delta /\
    (console s' = (console s ++ delta)%list \/
     console s' = (console s ++ delta ++ [Cout defeat_text])%list).
Proof.
  intros p s.
  assert (H : exists s', play (fun m => m) 3 s = Ret s')
    by (eexists; vm_compute; reflexivity).
  destruct H as [s' H].
  destruct (weak_player_never_wins (fun m => m) 3 s s' p) as (delta & Hd).
  - reflexivity.
  - simpl. lia.
  - exact H.
  - exists s', delta. split; [exact H|exact Hd].
Defined.
